(** * The compilation driver of [triton/compiler/compiler.py]

    A shallow embedding of the compile entry point, of the two source
    descriptors, of the cache-key composition, of the staged lowering
    pipeline and of the lazily bound kernel handle, followed by the
    properties that the specification states about them.

    Conventions.
    - Python [str] values are Rocq strings: sequences of code points in
      the range 0..255.
    - Python [int] values are [Z].
    - A Python [dict] whose iteration order is observed is an association
      list in insertion order ([odict]); a dict that is only looked up and
      updated is a [gmap].
    - Code that raises returns [inl e]; code that raises after having
      touched the cache or a collaborator returns the new world together
      with [inl e]. *)

From Stdlib Require Import ZArith Ascii String List Sorting.Permutation.
From stdpp Require Import base option list gmap strings sorting.

Open Scope string_scope.
Open Scope list_scope.
Open Scope Z_scope.

Set Warnings "-register-all".

(** ** Values, exceptions and results *)

Inductive value : Type :=
  | VNone
  | VBool (b : bool)
  | VInt (z : Z)
  | VStr (s : string)
  | VTuple (l : list value).

Inductive exn : Type :=
  | AssertionError (msg : string)
  | ValueError (msg : string)
  | TypeError (msg : string)
  | KeyError (key : string)
  | AttributeError (attr : string)
  | FileNotFoundError (path : string)
  | OutOfResources (required limit : Z) (name : string)
  | ExternalError (msg : string).

Definition result (A : Type) : Type := exn + A.

Definition is_ok {A} (r : result A) : bool :=
  match r with inr _ => true | inl _ => false end.

(** ** Regular expressions of [re], as far as the driver uses them

    Both attribute patterns are a sequence of single-character classes,
    each taken once, optionally ([?]) or one or more times ([+]), with one
    capturing group.  [match_here] is a backtracking matcher with greedy
    quantifiers, as [re] is. *)

Module Re.

Inductive quant : Type := One | Opt | Plus.

Record atom : Type := Atom {
  a_class : ascii -> bool;
  a_quant : quant;
  a_group : bool
}.

Definition code (c : ascii) : N := N_of_ascii c.

(** [\d] on code points below 256: the ASCII digits. *)
Definition is_digit (c : ascii) : bool :=
  ((48 <=? code c) && (code c <=? 57))%N.

(** [\s] on code points below 256: what [str.isspace] accepts there. *)
Definition is_space (c : ascii) : bool :=
  (((9 <=? code c) && (code c <=? 13))
   || ((28 <=? code c) && (code c <=? 32))
   || (code c =? 133) || (code c =? 160))%N.

(** [.] without the DOTALL flag. *)
Definition is_dot (c : ascii) : bool := negb (code c =? 10)%N.

Definition is_char (x : ascii) (c : ascii) : bool := Ascii.eqb x c.

Definition keep (a : atom) (c : ascii) (r : string * string) : string * string :=
  if a_group a then (String c (fst r), snd r) else r.

(** [match_here p s]: the match of [p] anchored at the start of [s], as
    the text of the group and the text left after the match. *)
Fixpoint match_here (p : list atom) (s : string) : option (string * string) :=
  match p with
  | [] => Some (EmptyString, s)
  | a :: p' =>
    match a_quant a with
    | One =>
      match s with
      | String c s' => if a_class a c then keep a c <$> match_here p' s' else None
      | EmptyString => None
      end
    | Opt =>
      match s with
      | String c s' =>
        if a_class a c then
          match match_here p' s' with
          | Some r => Some (keep a c r)
          | None => match_here p' s
          end
        else match_here p' s
      | EmptyString => match_here p' s
      end
    | Plus =>
      (fix more (t : string) : option (string * string) :=
         match t with
         | String c t' =>
           if a_class a c then
             match more t' with
             | Some r => Some (keep a c r)
             | None => keep a c <$> match_here p' t'
             end
           else None
         | EmptyString => None
         end) s
    end
  end.

(** [re.findall] for a pattern with one group: scan left to right, report
    the group of every match, resume after the match; a match that
    consumed nothing resumes one character further. *)
Fixpoint findall_from (fuel : nat) (p : list atom) (s : string) : list string :=
  match fuel with
  | O => []
  | S fuel' =>
    match match_here p s with
    | Some (g, rest) =>
      if (String.length rest <? String.length s)%nat
      then g :: findall_from fuel' p rest
      else g :: match s with
                | String _ s' => findall_from fuel' p s'
                | EmptyString => []
                end
    | None =>
      match s with
      | String _ s' => findall_from fuel' p s'
      | EmptyString => []
      end
    end
  end.

Definition findall (p : list atom) (s : string) : list string :=
  findall_from (S (String.length s)) p s.

Definition lit (x : string) : list atom :=
  (fun c => Atom (is_char c) One false) <$> list_ascii_of_string x.

(** What it means for a pattern to match a prefix of a text, without an
    order of preference: [accepts p s g rest] when [p] matches the part of
    [s] before [rest] and the group spans [g].  The matcher is compared
    with it below. *)
Definition keep_char (a : atom) (c : ascii) (g : string) : string :=
  if a_group a then String c g else g.

Inductive accepts : list atom -> string -> string -> string -> Prop :=
  | acc_nil s : accepts [] s EmptyString s
  | acc_one a p c s g rest :
      a_quant a = One -> a_class a c = true -> accepts p s g rest ->
      accepts (a :: p) (String c s) (keep_char a c g) rest
  | acc_opt_take a p c s g rest :
      a_quant a = Opt -> a_class a c = true -> accepts p s g rest ->
      accepts (a :: p) (String c s) (keep_char a c g) rest
  | acc_opt_skip a p s g rest :
      a_quant a = Opt -> accepts p s g rest ->
      accepts (a :: p) s g rest
  | acc_plus_last a p c s g rest :
      a_quant a = Plus -> a_class a c = true -> accepts p s g rest ->
      accepts (a :: p) (String c s) (keep_char a c g) rest
  | acc_plus_more a p c s g rest :
      a_quant a = Plus -> a_class a c = true -> accepts (a :: p) s g rest ->
      accepts (a :: p) (String c s) (keep_char a c g) rest.

(** The text from every position on: [s], [s[1:]], ..., the empty text. *)
Fixpoint suffixes (s : string) : list string :=
  s :: match s with
       | EmptyString => []
       | String _ s' => suffixes s'
       end.

End Re.

(** ** [_get_num_warps_from_ir_str] *)

(** The double quote, code point 34. *)
Definition dq : string := String "034"%char EmptyString.

(** ["triton_gpu.num-warps"\s?=\s?(\d+)\s?:] ; the dot is a wildcard. *)
Definition ttgir_num_warps_pattern : list Re.atom :=
  Re.lit (dq +:+ "triton_gpu") ++ [Re.Atom Re.is_dot Re.One false]
  ++ Re.lit ("num-warps" +:+ dq)
  ++ [Re.Atom Re.is_space Re.Opt false] ++ Re.lit "="
  ++ [Re.Atom Re.is_space Re.Opt false; Re.Atom Re.is_digit Re.Plus true;
      Re.Atom Re.is_space Re.Opt false] ++ Re.lit ":".

(** ["triton_gpu.num-warp-groups-per-cta"\s?=\s?(\d+)\s?:] *)
Definition num_warp_groups_pattern : list Re.atom :=
  Re.lit (dq +:+ "triton_gpu") ++ [Re.Atom Re.is_dot Re.One false]
  ++ Re.lit ("num-warp-groups-per-cta" +:+ dq)
  ++ [Re.Atom Re.is_space Re.Opt false] ++ Re.lit "="
  ++ [Re.Atom Re.is_space Re.Opt false; Re.Atom Re.is_digit Re.Plus true;
      Re.Atom Re.is_space Re.Opt false] ++ Re.lit ":".

(** [int(s)] on a string of decimal digits. *)
Definition digit_val (c : ascii) : Z := Z.of_N (Re.code c) - 48.

Fixpoint int_acc (acc : Z) (s : string) : Z :=
  match s with
  | EmptyString => acc
  | String c s' => int_acc (10 * acc + digit_val c) s'
  end.

Definition int_of_digits (s : string) : Z := int_acc 0 s.

Definition msg_num_warps : string := "Expected exactly one match for num_warps".
Definition msg_warp_groups : string :=
  "Expected triton_gpu.num-warp-groups-per-cta attribute to appear 0 or 1 times".

Definition _get_num_warps_from_ir_str (src : string) : result Z :=
  let num_warps_matches := Re.findall ttgir_num_warps_pattern src in
  match num_warps_matches with
  | [m] =>
    let num_warps := int_of_digits m in
    let num_warp_groups_matches := Re.findall num_warp_groups_pattern src in
    match num_warp_groups_matches with
    | [] => inr num_warps
    | [g] => inr (num_warps * int_of_digits g)
    | _ => inl (AssertionError msg_warp_groups)
    end
  | _ => inl (AssertionError msg_num_warps)
  end.

(** ** Python dictionaries whose order is observed *)

Definition odict (V : Type) : Type := list (string * V).

(** [d[k] = v]: an existing key keeps its position, a new key goes last. *)
Fixpoint dict_set {V} (k : string) (v : V) (d : odict V) : odict V :=
  match d with
  | [] => [(k, v)]
  | (k', v') :: d' =>
    if String.eqb k' k then (k', v) :: d' else (k', v') :: dict_set k v d'
  end.

Definition dict_of_assignments {V} (l : list (string * V)) : odict V :=
  fold_left (fun d kv => dict_set kv.1 kv.2 d) l [].

Definition dict_keys {V} (d : odict V) : list string := fst <$> d.

(** [l.index(x)]: the first position of [x], [ValueError] without one. *)
Fixpoint list_index (x : string) (l : list string) : result nat :=
  match l with
  | [] => inl (ValueError "is not in list")
  | y :: l' =>
    if String.eqb y x then inr O
    else match list_index x l' with
         | inr i => inr (S i)
         | inl e => inl e
         end
  end.

(** ** Sorting the environment items

    [sorted] on a list of [(str, str)] tuples: tuples compare
    lexicographically, strings by code point.  [merge_sort] is stable, as
    Python's sort is. *)

Definition item_le (x y : string * string) : Prop :=
  match String.compare x.1 y.1 with
  | Lt => True
  | Eq => String.leb x.2 y.2 = true
  | Gt => False
  end.

#[global] Instance item_le_dec : RelDecision item_le.
Proof.
  intros x y. unfold item_le.
  destruct (String.compare x.1 y.1); [apply _ | left; exact I | right; tauto].
Defined.

Definition sorted (l : list (string * string)) : list (string * string) :=
  merge_sort item_le l.

(** ** Collaborators outside the driver

    Hashing, rendering and (de)serialisation functions of the Python
    runtime, the frontend and the IR parser.  [str_frozenset seed l] is the
    text of [frozenset(l)] for the sequence [l] of inserted items, in an
    interpreter whose string hashing is seeded with [seed]: a frozenset
    prints its items in the order of its hash table, and the hashes of
    strings follow the seed that the interpreter draws when it starts
    (or takes from PYTHONHASHSEED). *)

Abbreviation Module_ := string (only parsing).
Abbreviation Options := (gmap string value) (only parsing).
Abbreviation Metadata := (gmap string value) (only parsing).

Record JITFunction : Type := {
  fn_name : string;       (* fn.__name__ *)
  fn_cache_key : string   (* fn.cache_key *)
}.

Record InstanceDescriptor : Type := {
  divisible_by_16 : option (list Z);
  equal_to_1 : option (list Z);
  ids_of_folded_args : option (list Z);
  divisible_by_8 : option (list Z)
}.

Class Runtime : Type := {
  md5_hexdigest : string -> string;
  str_frozenset : Z -> list (string * string) -> string;
  str_int_lists : list (list Z) -> string;
  str_dict_values : odict string -> string;
  str_dict : odict value -> string;
  json_dumps : gmap string value -> string;
  json_loads : string -> result (gmap string value);
  ast_to_ttir : JITFunction -> InstanceDescriptor -> option (odict string)
                -> odict value -> gmap string value -> result string;
  parse_mlir_module : string -> result string;
  binary_ext : string
}.

(** ** Source descriptors *)

Record ASTSource : Type := {
  ast_fn : JITFunction;
  ast_signature : option (odict string);   (* [None] when not given *)
  ast_constants : odict value;
  ast_config : InstanceDescriptor
}.

Record IRSource : Type := {
  ir_path : string;
  ir_ext : string;       (* path.suffix[1:] *)
  ir_src : string;       (* path.read_text() *)
  ir_name : string;      (* group 1 of the prototype match *)
  ir_signature : odict string
}.

Inductive Source : Type :=
  | SrcAST (a : ASTSource)
  | SrcIR (i : IRSource).

Definition src_ext (s : Source) : string :=
  match s with SrcAST _ => "ttir" | SrcIR i => ir_ext i end.

Definition src_name (s : Source) : string :=
  match s with SrcAST a => fn_name (ast_fn a) | SrcIR i => ir_name i end.

Section Sources.
Context `{Runtime}.

(** [sorted(x)] for a set of integers, [TypeError] on [None]. *)
Definition sorted_ints (x : option (list Z)) : result (list Z) :=
  match x with
  | Some l => inr (merge_sort Z.le l)
  | None => inl (TypeError "'NoneType' object is not iterable")
  end.

Definition InstanceDescriptor_hash (c : InstanceDescriptor) : result string :=
  match sorted_ints (divisible_by_16 c), sorted_ints (equal_to_1 c),
        sorted_ints (ids_of_folded_args c), sorted_ints (divisible_by_8 c) with
  | inr a, inr b, inr c', inr d => inr (md5_hexdigest (str_int_lists [a; b; c'; d]))
  | inl e, _, _, _ => inl e
  | _, inl e, _, _ => inl e
  | _, _, inl e, _ => inl e
  | _, _, _, inl e => inl e
  end.

Definition ASTSource_hash (a : ASTSource) : result string :=
  match InstanceDescriptor_hash (ast_config a) with
  | inr ch =>
    match ast_signature a with
    | Some sg =>
      inr (md5_hexdigest (fn_cache_key (ast_fn a) +:+ "-" +:+ ch +:+ "-"
                          +:+ str_dict_values sg +:+ "-"
                          +:+ str_dict (ast_constants a)))
    | None => inl (AttributeError "values")
    end
  | inl e => inl e
  end.

Definition IRSource_hash (i : IRSource) : result string :=
  inr (md5_hexdigest (ir_src i)).

Definition src_hash (s : Source) : result string :=
  match s with SrcAST a => ASTSource_hash a | SrcIR i => IRSource_hash i end.

Definition ASTSource_make_ir (a : ASTSource) (options : Options) : result Module_ :=
  ast_to_ttir (ast_fn a) (ast_config a) (ast_signature a) (ast_constants a) options.

Definition IRSource_make_ir (i : IRSource) (options : Options) : result Module_ :=
  parse_mlir_module (ir_path i).

Definition make_ir (s : Source) (options : Options) : result Module_ :=
  match s with
  | SrcAST a => ASTSource_make_ir a options
  | SrcIR i => IRSource_make_ir i options
  end.

(** [update_options] assigns [options.num_warps] in place; the options
    after the call are returned. *)
Definition ASTSource_update_options (a : ASTSource) (options : Options)
  : result Options := inr options.

Definition IRSource_update_options (i : IRSource) (options : Options)
  : result Options :=
  if String.eqb (ir_ext i) "ttgir" then
    match _get_num_warps_from_ir_str (ir_src i) with
    | inr n => inr (<["num_warps" := VInt n]> options)
    | inl e => inl e
    end
  else inr options.

Definition update_options (s : Source) (options : Options) : result Options :=
  match s with
  | SrcAST a => ASTSource_update_options a options
  | SrcIR i => IRSource_update_options i options
  end.

(** ** The cache key

    [f"{src.hash()}-{backend.hash()}-{options.hash()}-{frozenset(sorted(env.items()))}"],
    composed by an interpreter with hash seed [seed]. *)
Definition cache_key (seed : Z) (src_h backend_h options_h : string)
    (env : odict string) : string :=
  src_h +:+ "-" +:+ backend_h +:+ "-" +:+ options_h +:+ "-"
  +:+ str_frozenset seed (sorted env).

End Sources.

(** ** The world of a compile request

    The artifact store behind [get_cache_manager] is not part of the
    driver; the world holds its files and its committed groups, the
    environment variables and the hash seed of the interpreter that
    runs [compile], and the trace of the calls made to the cache and to
    the other collaborators. *)

(** Modelled from the spec: the storage handle that [put] returns, the
    directory of the run hash with the artifact's name. *)
Record Path : Type := { p_dir : string; p_name : string }.

Inductive event : Type :=
  | EGetGroup (hash name : string)
  | EReadText (p : Path)
  | EAddStages
  | EMakeIR
  | EStage (ext : string) (module : string) (metadata : gmap string value)
  | EPut (hash name data : string)
  | EPutGroup (hash name : string) (mapping : gmap string Path)
  | EMakeStub (metadata : gmap string value).

Record World : Type := {
  w_env : odict string;                          (* get_env_vars() *)
  w_seed : Z;                                    (* hash seed of the interpreter *)
  w_files : gmap string (gmap string string);    (* directory, name, content *)
  w_groups : gmap (string * string) (gmap string Path);
  w_trace : list event                           (* oldest first *)
}.

Definition M (A : Type) : Type := World -> World * result A.

Definition ret {A} (a : A) : M A := fun w => (w, inr a).
Definition raise {A} (e : exn) : M A := fun w => (w, inl e).
Definition bind {A B} (m : M A) (k : A -> M B) : M B :=
  fun w => match m w with
           | (w', inr a) => k a w'
           | (w', inl e) => (w', inl e)
           end.
Definition lift {A} (r : result A) : M A := fun w => (w, r).

Notation "x <~ m ;; k" := (bind m (fun x => k))
  (at level 100, m at next level, right associativity).

Definition log (e : event) : M unit :=
  fun w => ({| w_env := w_env w; w_seed := w_seed w; w_files := w_files w;
               w_groups := w_groups w; w_trace := w_trace w ++ [e] |}, inr tt).

Definition get_env_vars : M (odict string) := fun w => (w, inr (w_env w)).

(** The seed under which this interpreter hashes strings. *)
Definition get_hash_seed : M Z := fun w => (w, inr (w_seed w)).

(** Modelled from the spec: [probe(runHash, groupName)] of the store,
    the mapping of a committed group or a miss. *)
Definition get_group (hash name : string) : M (option (gmap string Path)) :=
  _ <~ log (EGetGroup hash name) ;;
  fun w => (w, inr (w_groups w !! (hash, name))).

(** Modelled from the spec: [put(runHash, artifact, artifactName)] of
    the store, which stores one artifact and returns its handle; groups
    are kept apart from artifacts. *)
Definition put (hash data name : string) : M Path :=
  _ <~ log (EPut hash name data) ;;
  fun w => ({| w_env := w_env w; w_seed := w_seed w;
               w_files := <[hash := <[name := data]> (default ∅ (w_files w !! hash))]>
                            (w_files w);
               w_groups := w_groups w; w_trace := w_trace w |},
            inr {| p_dir := hash; p_name := name |}).

(** Modelled from the spec: [putGroup(runHash, groupName, mapping)] of
    the store, which commits the mapping of a group. *)
Definition put_group (hash name : string) (mapping : gmap string Path) : M unit :=
  _ <~ log (EPutGroup hash name mapping) ;;
  fun w => ({| w_env := w_env w; w_seed := w_seed w; w_files := w_files w;
               w_groups := <[(hash, name) := mapping]> (w_groups w);
               w_trace := w_trace w |}, inr tt).

Definition path_str (p : Path) : string := p_dir p +:+ "/" +:+ p_name p.

(** [Path(p).read_text()] *)
Definition read_text (p : Path) : M string :=
  _ <~ log (EReadText p) ;;
  fun w => (w, match w_files w !! p_dir p ≫= (.!! p_name p) with
               | Some data => inr data
               | None => inl (FileNotFoundError (path_str p))
               end).

(** ** The backend descriptor

    [CUDABackend] is outside the driver: it is given by its hash, its
    option parser and option hash, the assignments [stages[ext] = fn] that
    [add_stages] performs on the empty dict, and its stub builder.  A
    stage function receives the module and the metadata dict, which it
    may update in place, and returns the next module or raises. *)

Definition Stage : Type :=
  string -> gmap string value -> result (string * gmap string value).

Record Backend : Type := {
  backend_hash : string;
  parse_options : gmap string value -> gmap string value;
  options_hash : gmap string value -> string;
  add_stages : value -> gmap string value -> list (string * Stage);
  make_launcher_stub : Source -> gmap string value -> string
}.

(** ** The compiled kernel handle *)

Record CompiledKernel : Type := {
  c_wrapper : string;                 (* the launcher loaded from [so_path] *)
  metadata : gmap string value;
  attrs : gmap string value;          (* attributes set through [setattr] *)
  asm : gmap string string;
  kernel : string;
  module : option Z;
  function : option Z
}.

(** [PurePath.suffix] and [PurePath.stem] of a file name. *)
Fixpoint rsplit_dot (s : string) : option (string * string) :=
  match s with
  | EmptyString => None
  | String c s' =>
    match rsplit_dot s' with
    | Some (b, a) => Some (String c b, a)
    | None => if Ascii.eqb c "." then Some (EmptyString, s') else None
    end
  end.

Definition path_suffix (name : string) : string :=
  match rsplit_dot name with
  | Some (String _ _, String c a) => String "." (String c a)
  | _ => EmptyString
  end.

Definition path_stem (name : string) : string :=
  match rsplit_dot name with
  | Some (String c b, String _ _) => String c b
  | _ => name
  end.

Definition drop_first (s : string) : string :=
  match s with String _ s' => s' | EmptyString => EmptyString end.

(** The files of [dir] that [glob(f'{stem}.*')] reports and whose suffix
    is not [.json], indexed by suffix; the stem holds no glob
    metacharacter, and the directory is listed in the order of its map. *)
Definition glob_asm (dir : gmap string string) (stem : string) : gmap string string :=
  map_fold (fun name data acc =>
              if String.prefix (stem +:+ ".") name
                 && negb (String.eqb (path_suffix name) ".json")
              then <[drop_first (path_suffix name) := data]> acc
              else acc) ∅ dir.

Section Driver.
Context `{Runtime}.

Definition CompiledKernel_init (so_path : string) (metadata_path : Path)
  : M CompiledKernel :=
  text <~ read_text metadata_path ;;
  md <~ lift (json_loads text) ;;
  fun w =>
    let asm_files :=
      glob_asm (default ∅ (w_files w !! p_dir metadata_path))
               (path_stem (p_name metadata_path)) in
    match asm_files !! binary_ext with
    | Some k =>
      (w, inr {| c_wrapper := so_path; metadata := md; attrs := md;
                 asm := asm_files; kernel := k;
                 module := None; function := None |})
    | None => (w, inl (KeyError binary_ext))
    end.

(** ** [compile] *)

Definition call_stage (ext : string) (compile_ir : Stage) (module : string)
    (metadata : gmap string value) : M (string * gmap string value) :=
  _ <~ log (EStage ext module metadata) ;;
  lift (compile_ir module metadata).

(** The body of the loop over [list(stages.items())[first_stage:]]; the
    loop state is the current module, the metadata and the cache group. *)
Definition stage_step (hash name : string) (st : string * Stage)
    (acc : string * gmap string value * gmap string Path)
  : M (string * gmap string value * gmap string Path) :=
  let '(module, metadata, cache_group) := acc in
  r <~ call_stage st.1 st.2 module metadata ;;
  p <~ put hash r.1 (name +:+ "." +:+ st.1) ;;
  ret (r.1, r.2, <[name +:+ "." +:+ st.1 := p]> cache_group).

Fixpoint run_stages (hash name : string) (stages : list (string * Stage))
    (acc : string * gmap string value * gmap string Path)
  : M (string * gmap string value * gmap string Path) :=
  match stages with
  | [] => ret acc
  | st :: rest =>
    acc' <~ stage_step hash name st acc ;;
    run_stages hash name rest acc'
  end.

(** [{"device_type": device_type, **options.__dict__, **get_env_vars()}] *)
Definition initial_metadata (device_type : value) (options : gmap string value)
    (env : odict string) : gmap string value :=
  (VStr <$> (list_to_map env : gmap string string))
  ∪ options ∪ {["device_type" := device_type]}.

Definition folded_args_metadata (signature : option (odict string))
    (config : InstanceDescriptor) (metadata : gmap string value)
  : result (gmap string value) :=
  match signature with
  | None => inr metadata
  | Some _ =>
    match ids_of_folded_args config with
    | Some ids => inr (<["ids_of_folded_args" := VTuple (VInt <$> ids)]> metadata)
    | None => inl (TypeError "'NoneType' object is not iterable")
    end
  end.

(** What the caller hands to [compile] as [src]: the path of an IR file,
    already read and matched against the prototype pattern, or a
    function. *)
Inductive SourceArg : Type :=
  | ArgPath (i : IRSource)
  | ArgFn (fn : JITFunction).

Definition make_source (src : SourceArg) (signature : option (odict string))
    (constants : option (odict value)) (config : InstanceDescriptor) : Source :=
  match src with
  | ArgPath i => SrcIR i
  | ArgFn fn =>
    SrcAST {| ast_fn := fn; ast_signature := signature;
              ast_constants := default [] constants; ast_config := config |}
  end.

Definition compile (backend : Backend) (src_arg : SourceArg) (device_type : value)
    (signature : option (odict string)) (config : InstanceDescriptor)
    (constants : option (odict value)) (extern_libs : value)
    (kwargs : gmap string value) : M CompiledKernel :=
  let src := make_source src_arg signature constants config in
  let options := parse_options backend kwargs in
  options <~ lift (update_options src options) ;;
  (* create cache manager *)
  src_h <~ lift (src_hash src) ;;
  env <~ get_env_vars ;;
  seed <~ get_hash_seed ;;
  let key := cache_key seed src_h (backend_hash backend)
                       (options_hash backend options) env in
  let hash := md5_hexdigest key in
  let metadata_filename := src_name src +:+ ".json" in
  g <~ get_group hash metadata_filename ;;
  let cache_group := default ∅ g in
  match cache_group !! metadata_filename with
  | Some metadata_path =>
    (* cache hit! *)
    text <~ read_text metadata_path ;;
    metadata <~ lift (json_loads text) ;;
    _ <~ log (EMakeStub metadata) ;;
    let so_path := make_launcher_stub backend src metadata in
    CompiledKernel_init so_path metadata_path
  | None =>
    (* initialize metadata *)
    env' <~ get_env_vars ;;
    metadata <~ lift (folded_args_metadata signature config
                        (initial_metadata device_type options env')) ;;
    (* run compilation pipeline and populate metadata *)
    _ <~ log EAddStages ;;
    let stages := dict_of_assignments (add_stages backend extern_libs options) in
    first_stage <~ lift (list_index (src_ext src) (dict_keys stages)) ;;
    _ <~ log EMakeIR ;;
    module <~ lift (make_ir src options) ;;
    acc <~ run_stages hash (src_name src) (drop first_stage stages)
             (module, metadata, cache_group) ;;
    let '(_, metadata, cache_group) := acc in
    (* write-back metadata *)
    p <~ put hash (json_dumps metadata) metadata_filename ;;
    let cache_group := <[metadata_filename := p]> cache_group in
    _ <~ put_group hash metadata_filename cache_group ;;
    _ <~ log (EMakeStub metadata) ;;
    let so_path := make_launcher_stub backend src metadata in
    match cache_group !! metadata_filename with
    | Some mp => CompiledKernel_init so_path mp
    | None => raise (TypeError "expected str, bytes or os.PathLike object, not NoneType")
    end
  end.

End Driver.

(** ** Lazy binding of the handle

    The driver is outside this file: the current device, the property
    [max_shared_mem] of a device and [load_binary], which returns the
    module, the function and the register and spill counts.  Every call
    into the driver is recorded. *)

Record Driver : Type := {
  get_current_device : Z;
  max_shared_mem : Z -> Z;
  load_binary : value -> string -> Z -> Z -> Z * Z * Z * Z
}.

Inductive driver_call : Type :=
  | QueryDevice (device : Z)
  | LoadBinary (name : value) (kernel : string) (shared device : Z).

(** [self.shared], an integer set from the metadata. *)
Definition attr_shared (k : CompiledKernel) : result Z :=
  match attrs k !! "shared" with
  | Some (VInt z) => inr z
  | Some _ => inl (TypeError "'>' not supported")
  | None => inl (AttributeError "shared")
  end.

Definition attr_name (k : CompiledKernel) : result value :=
  match attrs k !! "name" with
  | Some v => inr v
  | None => inl (AttributeError "name")
  end.

Definition bound (k : CompiledKernel) : bool :=
  match module k with Some _ => true | None => false end.

(** [_init_handles]: the calls made so far and the handle go in, the
    calls made, the handle after the call and the outcome come out. *)
Definition _init_handles (d : Driver) (calls : list driver_call) (k : CompiledKernel)
  : list driver_call * CompiledKernel * result unit :=
  match module k with
  | Some _ => (calls, k, inr tt)
  | None =>
    let device := get_current_device d in
    (* not enough shared memory to run the kernel *)
    let max_shared := max_shared_mem d device in
    let calls := calls ++ [QueryDevice device] in
    match attr_shared k with
    | inl e => (calls, k, inl e)
    | inr shared =>
      if max_shared <? shared then
        (calls, k, inl (OutOfResources shared max_shared "shared memory"))
      else
        match attr_name k with
        | inl e => (calls, k, inl e)
        | inr name =>
          let '(m, f, n_regs, n_spills) := load_binary d name (kernel k) shared device in
          (calls ++ [LoadBinary name (kernel k) shared device],
           {| c_wrapper := c_wrapper k; metadata := metadata k;
              attrs := <["n_spills" := VInt n_spills]>
                         (<["n_regs" := VInt n_regs]> (attrs k));
              asm := asm k; kernel := kernel k;
              module := Some m; function := Some f |},
           inr tt)
        end
    end
  end.

(** [__getattribute__('c_wrapper')] and [__getitem__(grid)]: the two
    accesses that force the binding; the launch closure itself is not
    modelled. *)
Definition get_c_wrapper (d : Driver) (calls : list driver_call) (k : CompiledKernel)
  : list driver_call * CompiledKernel * result string :=
  match _init_handles d calls k with
  | (calls', k', inr _) => (calls', k', inr (c_wrapper k'))
  | (calls', k', inl e) => (calls', k', inl e)
  end.

Definition getitem (d : Driver) (calls : list driver_call) (k : CompiledKernel)
    (grid : Z * Z * Z) : list driver_call * CompiledKernel * result (Z * Z * Z) :=
  match _init_handles d calls k with
  | (calls', k', inr _) => (calls', k', inr grid)
  | (calls', k', inl e) => (calls', k', inl e)
  end.

(** Successive accesses to one handle, each seeing the driver of its
    time; outcomes are dropped, the calls and the handle are threaded. *)
Fixpoint init_many (ds : list Driver) (calls : list driver_call) (k : CompiledKernel)
  : list driver_call * CompiledKernel :=
  match ds with
  | [] => (calls, k)
  | d :: ds' =>
    let '(calls', k', _) := _init_handles d calls k in
    init_many ds' calls' k'
  end.


(** ** The pipeline as the design describes it

    The chain of stages from the source's native format on, told without
    the world: the outcome of lowering, the calls and cache writes it
    makes in order, and the artifacts and group entries it leaves.  The
    properties below compare [run_stages] and [compile] with these. *)

Definition artifact_name (name ext : string) : string := name +:+ "." +:+ ext.

Fixpoint chain_result (stages : list (string * Stage)) (module : string)
    (md : gmap string value) : result (string * gmap string value) :=
  match stages with
  | [] => inr (module, md)
  | (ext, lower) :: rest =>
    match lower module md with
    | inr (module', md') => chain_result rest module' md'
    | inl e => inl e
    end
  end.

Fixpoint chain_events (hash name : string) (stages : list (string * Stage))
    (module : string) (md : gmap string value) : list event :=
  match stages with
  | [] => []
  | (ext, lower) :: rest =>
    EStage ext module md ::
    match lower module md with
    | inr (module', md') =>
      EPut hash (artifact_name name ext) module' :: chain_events hash name rest module' md'
    | inl _ => []
    end
  end.

Definition write_file (hash name data : string)
    (files : gmap string (gmap string string)) : gmap string (gmap string string) :=
  <[hash := <[name := data]> (default ∅ (files !! hash))]> files.

Fixpoint chain_files (hash name : string) (stages : list (string * Stage))
    (module : string) (md : gmap string value)
    (files : gmap string (gmap string string)) : gmap string (gmap string string) :=
  match stages with
  | [] => files
  | (ext, lower) :: rest =>
    match lower module md with
    | inr (module', md') =>
      chain_files hash name rest module' md'
        (write_file hash (artifact_name name ext) module' files)
    | inl _ => files
    end
  end.

Fixpoint chain_group (hash name : string) (stages : list (string * Stage))
    (module : string) (md : gmap string value)
    (group : gmap string Path) : gmap string Path :=
  match stages with
  | [] => group
  | (ext, lower) :: rest =>
    match lower module md with
    | inr (module', md') =>
      chain_group hash name rest module' md'
        (<[artifact_name name ext := {| p_dir := hash; p_name := artifact_name name ext |}]> group)
    | inl _ => group
    end
  end.

Definition is_stage_call (e : event) : bool :=
  match e with EStage _ _ _ => true | _ => false end.

Definition is_make_ir (e : event) : bool :=
  match e with EMakeIR => true | _ => false end.

Definition is_group_write (e : event) : bool :=
  match e with EPutGroup _ _ _ => true | _ => false end.

Definition is_write (e : event) : bool :=
  match e with EPut _ _ _ | EPutGroup _ _ _ => true | _ => false end.

Definition stage_ext (e : event) : option string :=
  match e with EStage ext _ _ => Some ext | _ => None end.

(** The world with its trace extended, and with new files. *)
Definition with_trace (w : World) (tr : list event) : World :=
  {| w_env := w_env w; w_seed := w_seed w; w_files := w_files w;
     w_groups := w_groups w; w_trace := w_trace w ++ tr |}.

Definition with_files (w : World) (files : gmap string (gmap string string)) : World :=
  {| w_env := w_env w; w_seed := w_seed w; w_files := files;
     w_groups := w_groups w; w_trace := w_trace w |}.

Definition with_group (w : World) (hash name : string) (g : gmap string Path) : World :=
  {| w_env := w_env w; w_seed := w_seed w; w_files := w_files w;
     w_groups := <[(hash, name) := g]> (w_groups w); w_trace := w_trace w |}.

(** The events a run adds to the trace of the world it starts in. *)
Definition new_events (w w' : World) : list event :=
  drop (length (w_trace w)) (w_trace w').

(** A stage that leaves one field of the metadata as it found it. *)
Definition preserves_field (field : string) (st : string * Stage) : Prop :=
  forall module md module' md',
    st.2 module md = inr (module', md') -> md' !! field = md !! field.

(** The metadata a stage call was given. *)
Definition stage_metadata (e : event) : option (gmap string value) :=
  match e with EStage _ _ md => Some md | _ => None end.

(** A computation that only appends to the trace and leaves the
    environment variables alone. *)
Definition extends {A} (m : M A) : Prop :=
  forall w, (exists tr, w_trace (m w).1 = w_trace w ++ tr)
            /\ w_env (m w).1 = w_env w.

(** The world as another interpreter, one with hash seed [seed], finds
    it: the store and the environment variables are those of [w]. *)
Definition with_seed (w : World) (seed : Z) : World :=
  {| w_env := w_env w; w_seed := seed; w_files := w_files w;
     w_groups := w_groups w; w_trace := w_trace w |}.

(** The metadata a stub was built from. *)
Definition stub_metadata (e : event) : option (gmap string value) :=
  match e with EMakeStub md => Some md | _ => None end.

(** [Path(p).read_text()] without the trace. *)
Definition file_at (w : World) (p : Path) : option string :=
  w_files w !! p_dir p ≫= (.!! p_name p).

(** ** A concrete runtime, backend and driver

    Small stand-ins for the collaborators, used to run the driver on
    concrete requests. *)

Module Demo.

Definition show_item (kv : string * string) : string :=
  "('" +:+ kv.1 +:+ "', '" +:+ kv.2 +:+ "')".

Definition show_value (v : option value) : string :=
  match v with
  | Some (VInt 8) => "8"
  | Some (VInt 4) => "4"
  | Some (VInt 16) => "16"
  | Some (VInt _) => "int"
  | Some _ => "obj"
  | None => "null"
  end.

(** The order in which a frozenset of the two sorted items of the
    environment [env] below is printed, as CPython 3.11 does for
    PYTHONHASHSEED from 0 to 10: in the order of the sorted list under
    the seeds 1 and 6 to 10, in the opposite order under the seeds 0 and
    2 to 5. *)
Definition hash_order (seed : Z) (l : list (string * string)) : list (string * string) :=
  if (seed =? 0) || ((2 <=? seed) && (seed <=? 5)) then reverse l else l.

#[global] Instance runtime : Runtime := {|
  md5_hexdigest s := "md5(" +:+ s +:+ ")";
  str_frozenset seed l :=
    "frozenset({" +:+ String.concat ", " (show_item <$> hash_order seed l) +:+ "})";
  str_int_lists _ := "[[], [], [], []]";
  str_dict_values d := "dict_values([" +:+ String.concat ", " (snd <$> d) +:+ "])";
  str_dict d := "{" +:+ String.concat ", " (fst <$> d) +:+ "}";
  json_dumps m := "{num_warps: " +:+ show_value (m !! "num_warps") +:+ "}";
  json_loads s :=
    inr {[ "name" := VStr "kernel"; "shared" := VInt 40000; "text" := VStr s ]};
  ast_to_ttir fn _ _ _ _ := inr ("ast(" +:+ fn_name fn +:+ ")");
  parse_mlir_module path := inr ("parsed(" +:+ path +:+ ")");
  binary_ext := "cubin"
|}.

Definition lower (ext : string) : Stage :=
  fun module metadata => inr (ext +:+ "(" +:+ module +:+ ")", metadata).

Definition lower_llir : Stage :=
  fun module metadata =>
    inr ("llir(" +:+ module +:+ ")", <["shared" := VInt 40000]> metadata).

Definition lower_ptx : Stage :=
  fun module metadata =>
    inr ("ptx(" +:+ module +:+ ")", <["name" := VStr "kernel"]> metadata).

Definition failing : Stage :=
  fun _ _ => inl (ExternalError "ptxas failed").

Definition cuda_stages (ptx : Stage) : list (string * Stage) :=
  [("ttir", lower "ttir"); ("ttgir", lower "ttgir"); ("llir", lower_llir);
   ("ptx", ptx); ("cubin", lower "cubin")].

Definition cuda (ptx : Stage) : Backend := {|
  backend_hash := "cuda-80";
  parse_options kwargs := kwargs ∪ {[ "num_warps" := VInt 4; "num_ctas" := VInt 1 ]};
  options_hash o := "opts(" +:+ show_value (o !! "num_warps") +:+ ")";
  add_stages _ _ := cuda_stages ptx;
  make_launcher_stub src _ := src_name src +:+ ".so"
|}.

Definition device_type : value := VTuple [VStr "cuda"; VInt 80].

Definition no_config : InstanceDescriptor := {|
  divisible_by_16 := None; equal_to_1 := None;
  ids_of_folded_args := None; divisible_by_8 := None
|}.

Definition ttgir_text (attributes : string) : IRSource := {|
  ir_path := "kernel.ttgir"; ir_ext := "ttgir";
  ir_src := "module attributes {" +:+ attributes +:+ "} { tt.func public @kernel() { } }";
  ir_name := "@kernel"; ir_signature := []
|}.

Definition warps8 : string :=
  dq +:+ "triton_gpu.num-warps" +:+ dq +:+ " = 8 : i32".
Definition groups2 : string :=
  dq +:+ "triton_gpu.num-warp-groups-per-cta" +:+ dq +:+ " = 2 : i32".

Definition ttir_text (attributes : string) : IRSource := {|
  ir_path := "kernel.ttir"; ir_ext := "ttir";
  ir_src := "module attributes {" +:+ attributes +:+ "} { tt.func public @kernel() { } }";
  ir_name := "@kernel"; ir_signature := []
|}.

Definition env : odict string :=
  [("TRITON_ENABLE_TMA", "0"); ("TRITON_DISABLE_LINE_INFO", "1")].

Definition empty_world : World :=
  {| w_env := env; w_seed := 1; w_files := ∅; w_groups := ∅; w_trace := [] |}.

Definition no_kwargs : gmap string value := ∅.

Definition compile_text (ptx : Stage) (i : IRSource) : M CompiledKernel :=
  compile (cuda ptx) (ArgPath i) device_type None no_config None VNone no_kwargs.

(** The request used in the runs below: a [ttgir] text with eight warps. *)
Definition request : IRSource := ttgir_text warps8.

Definition refined : gmap string value :=
  <["num_warps" := VInt 8]> (parse_options (cuda lower_ptx) no_kwargs).

Definition seed : gmap string value := initial_metadata device_type refined env.

Definition lowered : gmap string value :=
  <["name" := VStr "kernel"]> (<["shared" := VInt 40000]> seed).

(** The world after one successful compile of [request]. *)
Definition warm_world : World := (compile_text lower_ptx request empty_world).1.

Definition gpu (max_shared : Z) : Driver := {|
  get_current_device := 0;
  max_shared_mem _ := max_shared;
  load_binary _ _ _ _ := (1, 2, 32, 0)
|}.

Definition handle (shared : Z) : CompiledKernel := {|
  c_wrapper := "kernel.so";
  metadata := {[ "name" := VStr "kernel"; "shared" := VInt shared ]};
  attrs := {[ "name" := VStr "kernel"; "shared" := VInt shared ]};
  asm := {[ "cubin" := "binary" ]};
  kernel := "binary";
  module := None;
  function := None
|}.

End Demo.

(** * Further parts of the driver *)

(** ** [convert_type_repr]

    [re.search(r'!tt\.ptr<([^,]+)', x)]: the leftmost position at which
    the pattern matches, as the text of the group. *)

Fixpoint re_search (p : list Re.atom) (s : string) : option string :=
  match Re.match_here p s with
  | Some (g, _) => Some g
  | None =>
    match s with
    | String _ s' => re_search p s'
    | EmptyString => None
    end
  end.

Definition not_comma (c : ascii) : bool := negb (Ascii.eqb c ",").

Definition ptr_pattern : list Re.atom :=
  Re.lit "!tt.ptr<" ++ [Re.Atom not_comma Re.Plus true].

(** The recursion is on the group, a proper part of the text; [fuel]
    bounds its depth. *)
Fixpoint convert_type_repr_from (fuel : nat) (x : string) : string :=
  match fuel with
  | O => x
  | S fuel' =>
    match re_search ptr_pattern x with
    | Some g => String "*" (convert_type_repr_from fuel' g)
    | None => x
    end
  end.

Definition convert_type_repr (x : string) : string :=
  convert_type_repr_from (String.length x) x.

(** [n] stars. *)
Fixpoint stars (n : nat) (s : string) : string :=
  match n with
  | O => s
  | S n' => String "*" (stars n' s)
  end.

(** ** Signatures given as text

    [{k: v.strip() for k, v in enumerate(signature.split(","))}], in
    [ASTSource.__init__] and [SpecializationDescriptor.__post_init__]. *)

(** [s.split(",")] *)
Fixpoint split_comma (s : string) : list string :=
  match s with
  | EmptyString => [EmptyString]
  | String c s' =>
    if Ascii.eqb c "," then EmptyString :: split_comma s'
    else match split_comma s' with
         | h :: t => String c h :: t
         | [] => [String c EmptyString]
         end
  end.

(** [s.lstrip()], [s.rstrip()] and [s.strip()] *)
Fixpoint lstrip (s : string) : string :=
  match s with
  | String c s' => if Re.is_space c then lstrip s' else s
  | EmptyString => EmptyString
  end.

Fixpoint rstrip (s : string) : string :=
  match s with
  | String c s' =>
    match rstrip s' with
    | EmptyString => if Re.is_space c then EmptyString else String c EmptyString
    | r => String c r
    end
  | EmptyString => EmptyString
  end.

Definition strip (s : string) : string := rstrip (lstrip s).

(** [enumerate(l)] *)
Definition enumerate {A} (l : list A) : list (nat * A) := imap (fun i x => (i, x)) l.

Definition signature_of_text (signature : string) : list (nat * string) :=
  enumerate (strip <$> split_comma signature).

(** [",".join(l)] and the whitespace-only texts, to state what
    [signature_of_text] undoes. *)
Fixpoint join_comma (l : list string) : string :=
  match l with
  | [] => EmptyString
  | [x] => x
  | x :: l' => x +:+ "," +:+ join_comma l'
  end.

Fixpoint all_chars (f : ascii -> bool) (s : string) : bool :=
  match s with
  | EmptyString => true
  | String c s' => f c && all_chars f s'
  end.

Definition first_char (s : string) : option ascii :=
  match s with String c _ => Some c | EmptyString => None end.

Fixpoint last_char (s : string) : option ascii :=
  match s with
  | EmptyString => None
  | String c EmptyString => Some c
  | String _ s' => last_char s'
  end.

(** A type as it stands in a signature: no comma, no white space at
    either end. *)
Definition clean_type (t : string) : Prop :=
  all_chars not_comma t = true
  /\ (forall c, first_char t = Some c -> Re.is_space c = false)
  /\ (forall c, last_char t = Some c -> Re.is_space c = false).

(** ** Texts: prefixes and runs of a character class *)

(** [s] without its prefix [x], when it has it. *)
Fixpoint drop_prefix (x s : string) : option string :=
  match x with
  | EmptyString => Some s
  | String a x' =>
    match s with
    | String b s' => if Ascii.eqb a b then drop_prefix x' s' else None
    | EmptyString => None
    end
  end.

(** The longest prefix of [s] whose characters are all in [f], and the
    rest. *)
Fixpoint take_while (f : ascii -> bool) (s : string) : string :=
  match s with
  | String c s' => if f c then String c (take_while f s') else EmptyString
  | EmptyString => EmptyString
  end.

Fixpoint drop_while (f : ascii -> bool) (s : string) : string :=
  match s with
  | String c s' => if f c then drop_while f s' else s
  | EmptyString => EmptyString
  end.

(** [c in s] *)
Fixpoint has_char (c : ascii) (s : string) : bool :=
  match s with
  | EmptyString => false
  | String d s' => Ascii.eqb c d || has_char c s'
  end.

(** [s.count(c)] *)
Fixpoint count_char (c : ascii) (s : string) : nat :=
  match s with
  | EmptyString => O
  | String d s' => (if Ascii.eqb c d then 1 else 0) + count_char c s'
  end.

(** A type written into a signature text with white space around it. *)
Definition padded (p : string * string * string) : string :=
  p.1.1 +:+ p.1.2 +:+ p.2.

Definition padding_ok (p : string * string * string) : Prop :=
  all_chars Re.is_space p.1.1 = true /\ clean_type p.1.2
  /\ all_chars Re.is_space p.2 = true.

(** Two enumerations of one set of argument positions, or no set on
    either side. *)
Definition same_set (a b : option (list Z)) : Prop :=
  match a, b with
  | Some x, Some y => x ≡ₚ y
  | None, None => True
  | _, _ => False
  end.

Definition same_descriptor (c1 c2 : InstanceDescriptor) : Prop :=
  same_set (divisible_by_16 c1) (divisible_by_16 c2)
  /\ same_set (equal_to_1 c1) (equal_to_1 c2)
  /\ same_set (ids_of_folded_args c1) (ids_of_folded_args c2)
  /\ same_set (divisible_by_8 c1) (divisible_by_8 c2).

Definition unset_field (c : InstanceDescriptor) : Prop :=
  divisible_by_16 c = None \/ equal_to_1 c = None
  \/ ids_of_folded_args c = None \/ divisible_by_8 c = None.

(** ** The handle as a function of the files

    What [CompiledKernel.__init__] builds from the launcher path, the
    metadata path and the files of the store. *)
Definition handle_of_files `{Runtime} (so_path : string) (metadata_path : Path)
    (files : gmap string (gmap string string)) : result CompiledKernel :=
  match files !! p_dir metadata_path ≫= (.!! p_name metadata_path) with
  | None => inl (FileNotFoundError (path_str metadata_path))
  | Some text =>
    match json_loads text with
    | inl e => inl e
    | inr md =>
      let asm_files :=
        glob_asm (default ∅ (files !! p_dir metadata_path))
                 (path_stem (p_name metadata_path)) in
      match asm_files !! binary_ext with
      | Some k =>
        inr {| c_wrapper := so_path; metadata := md; attrs := md;
               asm := asm_files; kernel := k;
               module := None; function := None |}
      | None => inl (KeyError binary_ext)
      end
    end
  end.

(** The handle with another launcher. *)
Definition with_launcher (k : CompiledKernel) (so_path : string) : CompiledKernel :=
  {| c_wrapper := so_path; metadata := metadata k; attrs := attrs k;
     asm := asm k; kernel := kernel k; module := module k;
     function := function k |}.

(** ** What a chain of stages produces

    The artifact of every stage that completed, by format, in the order
    of the chain. *)
Fixpoint chain_outputs (stages : list (string * Stage)) (module : string)
    (md : gmap string value) : list (string * string) :=
  match stages with
  | [] => []
  | (ext, lower) :: rest =>
    match lower module md with
    | inr (module', md') => (ext, module') :: chain_outputs rest module' md'
    | inl _ => []
    end
  end.

(** ** The files that [CompiledKernel.__init__] collects

    The test that [glob_asm] applies to a file name, and the key under
    which it files the content. *)
Definition glob_match (stem name : string) : bool :=
  String.prefix (stem +:+ ".") name
  && negb (String.eqb (path_suffix name) ".json").

Definition asm_key (name : string) : string := drop_first (path_suffix name).

(** A format that makes a one-part suffix: not empty, without a dot. *)
Definition plain_ext (ext : string) : Prop :=
  ext <> EmptyString /\ has_char "." ext = false.

(** No two collected files of the directory share a suffix. *)
Definition distinct_suffixes (stem : string) (dir : gmap string string) : Prop :=
  forall f1 f2, is_Some (dir !! f1) -> is_Some (dir !! f2) ->
    glob_match stem f1 = true -> glob_match stem f2 = true ->
    asm_key f1 = asm_key f2 -> f1 = f2.

(** ** Accesses to a handle

    The calls to [load_binary] among the calls into the driver. *)
Definition is_load (c : driver_call) : bool :=
  match c with
  | LoadBinary _ _ _ _ => true
  | QueryDevice _ => false
  end.

(** ** The warp-count attribute as it is written

    [\s?]: nothing, or one white-space character. *)
Definition opt_space (s : string) : bool :=
  match s with
  | EmptyString => true
  | String c EmptyString => Re.is_space c
  | String _ (String _ _) => false
  end.

(** The attribute as it stands in a module: the quoted name, with any
    character but a line break for the pattern's dot, the equals sign,
    the digits and the colon, each optionally set off by one white-space
    character. *)
Definition warps_attribute (x : ascii) (sp1 sp2 digits sp3 : string) : string :=
  dq +:+ "triton_gpu" +:+ String x ("num-warps" +:+ dq)
  +:+ sp1 +:+ "=" +:+ sp2 +:+ digits +:+ sp3 +:+ ":".

(** What the two attribute patterns have in common: the quote, the
    dialect, any character and [num-warp].  [at_warps_head t] when [t]
    starts so, and the number of positions of a text at which it does. *)
Definition at_warps_head (t : string) : bool :=
  match drop_prefix (dq +:+ "triton_gpu") t with
  | Some (String _ t') =>
    match drop_prefix "num-warp" t' with
    | Some _ => true
    | None => false
    end
  | _ => false
  end.

Fixpoint count_warps_heads (s : string) : nat :=
  (if at_warps_head s then 1 else 0)
  + match s with
    | String _ s' => count_warps_heads s'
    | EmptyString => 0
    end.

(** ** Sample requests *)

Module Sample.

Definition add_kernel : JITFunction :=
  {| fn_name := "add_kernel"; fn_cache_key := "3f2a" |}.

(** A backend that starts lowering at [llir]. *)
Definition late_backend : Backend := {|
  backend_hash := "late-80";
  parse_options := parse_options (Demo.cuda Demo.lower_ptx);
  options_hash := options_hash (Demo.cuda Demo.lower_ptx);
  add_stages _ _ := [("llir", Demo.lower_llir); ("cubin", Demo.lower "cubin")];
  make_launcher_stub src _ := src_name src +:+ ".so"
|}.

(** The first compile of [Demo.request] and the handle it returns. *)
Definition first_run : World * result CompiledKernel :=
  Demo.compile_text Demo.lower_ptx Demo.request Demo.empty_world.

Definition first_handle : CompiledKernel :=
  match first_run.2 with
  | inr k => k
  | inl _ => Demo.handle 0
  end.

Definition config_a : InstanceDescriptor := {|
  divisible_by_16 := Some [0; 1; 3]; equal_to_1 := Some [4];
  ids_of_folded_args := Some []; divisible_by_8 := Some [2; 5]
|}.

Definition config_b : InstanceDescriptor := {|
  divisible_by_16 := Some [1; 0; 3]; equal_to_1 := Some [4];
  ids_of_folded_args := Some []; divisible_by_8 := Some [5; 2]
|}.

End Sample.
(** * Properties *)

(** ** The scanner terminates within its fuel *)

Lemma findall_from_enough p : forall n m s,
  (String.length s < n)%nat -> (String.length s < m)%nat ->
  Re.findall_from n p s = Re.findall_from m p s.
Proof.
  induction n as [|n IH]; intros m s Hn Hm; [lia|].
  destruct m as [|m]; [lia|].
  simpl. destruct (Re.match_here p s) as [[g rest]|].
  - destruct (String.length rest <? String.length s)%nat eqn:E.
    + apply Nat.ltb_lt in E. f_equal. apply IH; lia.
    + destruct s as [|c s']; [reflexivity|]. simpl in *. f_equal. apply IH; lia.
  - destruct s as [|c s']; [reflexivity|]. simpl in *. apply IH; lia.
Qed.

Lemma findall_fuel p s n :
  (String.length s < n)%nat -> Re.findall_from n p s = Re.findall p s.
Proof. intros Hn. unfold Re.findall. apply findall_from_enough; lia. Qed.

(** ** The matcher against the meaning of a pattern *)

Lemma keep_keep_char a c r : Re.keep a c r = (Re.keep_char a c r.1, r.2).
Proof. unfold Re.keep, Re.keep_char. destruct r. by destruct (Re.a_group a). Qed.

Lemma match_here_sound p : forall s g rest,
  Re.match_here p s = Some (g, rest) -> Re.accepts p s g rest.
Proof.
  induction p as [|a p IH]; intros s g rest.
  - simpl. intros [= <- <-]. constructor.
  - simpl. destruct (Re.a_quant a) eqn:Eq.
    + destruct s as [|c s]; [discriminate|].
      destruct (Re.a_class a c) eqn:Ec; [|discriminate].
      destruct (Re.match_here p s) as [[g' r']|] eqn:Em; [|discriminate].
      simpl. rewrite keep_keep_char. intros [= <- <-]. apply Re.acc_one; auto.
    + destruct s as [|c s].
      * intros Hm. apply Re.acc_opt_skip; auto.
      * destruct (Re.a_class a c) eqn:Ec.
        -- destruct (Re.match_here p s) as [[g' r']|] eqn:Em.
           ++ rewrite keep_keep_char. intros [= <- <-]. apply Re.acc_opt_take; auto.
           ++ intros Hm. apply Re.acc_opt_skip; auto.
        -- intros Hm. apply Re.acc_opt_skip; auto.
    + revert g rest. induction s as [|c s IHs]; intros g rest; [discriminate|].
      destruct (Re.a_class a c) eqn:Ec; [|discriminate].
      match goal with |- context [match ?X with Some r => _ | None => _ end] =>
        destruct X as [[g' r']|] eqn:Emore end.
      * rewrite keep_keep_char. intros [= <- <-].
        apply Re.acc_plus_more; auto.
      * destruct (Re.match_here p s) as [[g' r']|] eqn:Em; [|discriminate].
        simpl. rewrite keep_keep_char. intros [= <- <-].
        apply Re.acc_plus_last; auto.
Qed.

Lemma match_here_complete p s g rest :
  Re.accepts p s g rest -> is_Some (Re.match_here p s).
Proof.
  induction 1 as [s|a p c s g rest Hq Hc _ IH|a p c s g rest Hq Hc _ IH
                 |a p s g rest Hq _ IH|a p c s g rest Hq Hc _ IH
                 |a p c s g rest Hq Hc _ IH].
  - by eexists.
  - simpl. rewrite Hq, Hc. destruct IH as [r ->]. by eexists.
  - simpl. rewrite Hq, Hc. destruct IH as [r ->]. by eexists.
  - simpl. rewrite Hq. destruct IH as [r Hr].
    destruct s as [|c s]; [by eexists|].
    destruct (Re.a_class a c); [|by eexists].
    destruct (Re.match_here p s); by eexists.
  - simpl. rewrite Hq, Hc. destruct IH as [r ->].
    match goal with |- context [match ?X with Some r => _ | None => _ end] =>
      destruct X end; by eexists.
  - simpl in IH |- *. rewrite Hq in IH |- *. rewrite Hc.
    destruct IH as [r ->]. by eexists.
Qed.

(** The scan reports nothing exactly when the pattern matches at no
    position of the text. *)
Lemma findall_from_nil p : forall n s,
  (String.length s < n)%nat ->
  Re.findall_from n p s = [] <->
  Forall (fun t => Re.match_here p t = None) (Re.suffixes s).
Proof.
  induction n as [|n IH]; intros s Hn; [lia|].
  simpl. destruct (Re.match_here p s) as [[g rest]|] eqn:Em.
  - split.
    + destruct (_ <? _)%nat; [discriminate|]. discriminate.
    + destruct s; simpl; intros Hall; apply Forall_cons in Hall as [Hs _]; congruence.
  - destruct s as [|c s'].
    + split; [|done]. intros _. simpl. repeat constructor. exact Em.
    + simpl in Hn. rewrite IH by lia. simpl. split.
      * intros Hall. constructor; [exact Em|exact Hall].
      * intros Hall. by apply Forall_cons in Hall as [_ Hall].
Qed.

Lemma findall_nil p s :
  Re.findall p s = [] <->
  forall t, t ∈ Re.suffixes s -> forall g rest, ~ Re.accepts p t g rest.
Proof.
  unfold Re.findall. rewrite findall_from_nil by lia. rewrite Forall_forall.
  split.
  - intros Hall t Ht g rest Hacc.
    destruct (match_here_complete _ _ _ _ Hacc) as [r Hr].
    rewrite (Hall t Ht) in Hr. discriminate.
  - intros Hnone t Ht.
    destruct (Re.match_here p t) as [[g rest]|] eqn:Em; [|done].
    exfalso. exact (Hnone t Ht g rest (match_here_sound _ _ _ _ Em)).
Qed.

(** Every group that the scan reports is the group of a match at some
    position of the text. *)
Lemma findall_from_sound p : forall n s g,
  g ∈ Re.findall_from n p s ->
  exists t rest, t ∈ Re.suffixes s /\ Re.accepts p t g rest.
Proof.
  assert (Hsuf : forall s t, t ∈ Re.suffixes s -> forall c, t ∈ Re.suffixes (String c s)).
  { intros s t Ht c. simpl. apply elem_of_cons. by right. }
  assert (Hself : forall s, s ∈ Re.suffixes s).
  { intros [|c s]; simpl; apply elem_of_cons; by left. }
  assert (Htrans : forall s t, t ∈ Re.suffixes s ->
                     forall u, u ∈ Re.suffixes t -> u ∈ Re.suffixes s).
  { induction s as [|c s IH]; intros t Ht u Hu.
    - simpl in Ht. apply elem_of_cons in Ht as [->|Ht]; [done|].
      by apply elem_of_nil in Ht.
    - simpl in Ht. apply elem_of_cons in Ht as [->|Ht]; [done|].
      apply Hsuf. by apply (IH t). }
  assert (Hrest : forall q s g rest, Re.accepts q s g rest -> rest ∈ Re.suffixes s).
  { induction 1; auto. }
  induction n as [|n IH]; intros s g; simpl; [by intros ?%elem_of_nil|].
  destruct (Re.match_here p s) as [[g' rest]|] eqn:Em.
  - pose proof (match_here_sound _ _ _ _ Em) as Hacc.
    destruct (_ <? _)%nat.
    + intros [->|Hin]%elem_of_cons; [by eauto|].
      destruct (IH _ _ Hin) as (t & r & Ht & Hr).
      exists t, r. split; [|done]. apply (Htrans s rest); eauto.
    + intros [->|Hin]%elem_of_cons; [by eauto|].
      destruct s as [|c s']; [by apply elem_of_nil in Hin|].
      destruct (IH _ _ Hin) as (t & r & Ht & Hr). eauto.
  - destruct s as [|c s']; [by intros ?%elem_of_nil|].
    intros Hin. destruct (IH _ _ Hin) as (t & r & Ht & Hr). eauto.
Qed.

(** ** Binding *)

Lemma init_handles_bound d calls k :
  bound k = true -> _init_handles d calls k = (calls, k, inr tt).
Proof.
  unfold bound, _init_handles. destruct (module k); [reflexivity | discriminate].
Qed.

Lemma init_handles_unbound d calls k shared :
  module k = None -> attrs k !! "shared" = Some (VInt shared) ->
  _init_handles d calls k =
    let device := get_current_device d in
    let max_shared := max_shared_mem d device in
    if max_shared <? shared then
      (calls ++ [QueryDevice device], k,
       inl (OutOfResources shared max_shared "shared memory"))
    else
      match attr_name k with
      | inl e => (calls ++ [QueryDevice device], k, inl e)
      | inr name =>
        let '(m, f, n_regs, n_spills) := load_binary d name (kernel k) shared device in
        (calls ++ [QueryDevice device] ++ [LoadBinary name (kernel k) shared device],
         {| c_wrapper := c_wrapper k; metadata := metadata k;
            attrs := <["n_spills" := VInt n_spills]>
                       (<["n_regs" := VInt n_regs]> (attrs k));
            asm := asm k; kernel := kernel k;
            module := Some m; function := Some f |},
         inr tt)
      end.
Proof.
  intros Hm Hs. unfold _init_handles, attr_shared. rewrite Hm, Hs. cbn zeta.
  destruct (_ <? _); [reflexivity|].
  destruct (attr_name k); [reflexivity|].
  destruct (load_binary _ _ _ _ _) as [[[m f] r] s].
  by rewrite <- app_assoc.
Qed.

Lemma init_handles_ok_bound d calls k calls' k' :
  _init_handles d calls k = (calls', k', inr tt) -> bound k' = true.
Proof.
  unfold _init_handles, bound.
  destruct (module k) eqn:Hm.
  - intros [= <- <-]. by rewrite Hm.
  - destruct (attr_shared k); [discriminate|].
    destruct (_ <? _); [discriminate|].
    destruct (attr_name k); [discriminate|].
    destruct (load_binary _ _ _ _ _) as [[[m f] r] s].
    by intros [= <- <-].
Qed.

(** C7. An unbound handle whose shared-memory requirement is [shared]
    fails to bind with [OutOfResources] exactly when [shared] exceeds the
    [max_shared_mem] of the current device, and the exception then carries
    [shared], that maximum and the text "shared memory"; 70000 against
    49152 raises [OutOfResources(70000, 49152, "shared memory")], 40000
    against 49152 binds. *)
Theorem init_handles_resource_check d calls k shared :
  module k = None ->
  attrs k !! "shared" = Some (VInt shared) ->
  let max_shared := max_shared_mem d (get_current_device d) in
  let out := _init_handles d calls k in
  ((exists r a n, out.2 = inl (OutOfResources r a n)) <-> max_shared < shared)
  /\ (max_shared < shared ->
      out.2 = inl (OutOfResources shared max_shared "shared memory"))
  /\ (shared <= max_shared -> is_Some (attrs k !! "name") ->
      out.2 = inr tt /\ bound out.1.2 = true)
  /\ (shared = 70000 -> max_shared = 49152 ->
      out.2 = inl (OutOfResources 70000 49152 "shared memory"))
  /\ (shared = 40000 -> max_shared = 49152 -> is_Some (attrs k !! "name") ->
      out.2 = inr tt /\ bound out.1.2 = true).
Proof.
  intros Hm Hs max_shared out.
  assert (Hgt : max_shared < shared ->
                out.2 = inl (OutOfResources shared max_shared "shared memory")).
  { intros Hlt. subst out. rewrite (init_handles_unbound _ _ _ _ Hm Hs). cbn zeta.
    fold max_shared. apply Z.ltb_lt in Hlt. by rewrite Hlt. }
  assert (Hle : shared <= max_shared -> is_Some (attrs k !! "name") ->
                out.2 = inr tt /\ bound out.1.2 = true).
  { intros Hle [name Hn]. subst out. rewrite (init_handles_unbound _ _ _ _ Hm Hs).
    cbn zeta. fold max_shared. apply Z.ltb_ge in Hle. rewrite Hle.
    unfold attr_name. rewrite Hn.
    destruct (load_binary _ _ _ _ _) as [[[m f] r] s]. done. }
  split; [|split; [exact Hgt|split; [exact Hle|split]]].
  - split.
    + intros (r & a & n & Hout).
      destruct (Z_lt_le_dec max_shared shared) as [|Hle']; [done|].
      exfalso. revert Hout. subst out.
      rewrite (init_handles_unbound _ _ _ _ Hm Hs). cbn zeta. fold max_shared.
      apply Z.ltb_ge in Hle'. rewrite Hle'. unfold attr_name.
      destruct (attrs k !! "name"); [|discriminate].
      by destruct (load_binary _ _ _ _ _) as [[[? ?] ?] ?].
    + intros Hlt. eauto.
  - intros -> Hmax. rewrite Hgt; [by rewrite Hmax | lia].
  - intros -> Hmax. apply Hle. lia.
Qed.

(** C8. Once a call of [_init_handles] has bound the handle, every later
    call, whatever the driver then answers, makes no driver call (no
    property query, no binary load) and returns the handle as it is:
    module, function and the register and spill attributes keep their
    values; the same holds for any sequence of later accesses. *)
Theorem init_handles_idempotent d calls k calls' k' :
  _init_handles d calls k = (calls', k', inr tt) ->
  (forall d2 calls2, _init_handles d2 calls2 k' = (calls2, k', inr tt))
  /\ (forall d2 calls2, get_c_wrapper d2 calls2 k' = (calls2, k', inr (c_wrapper k')))
  /\ (forall d2 calls2 grid, getitem d2 calls2 k' grid = (calls2, k', inr grid))
  /\ (forall ds calls2, init_many ds calls2 k' = (calls2, k')).
Proof.
  intros Hb. apply init_handles_ok_bound in Hb.
  assert (Hone : forall d2 calls2, _init_handles d2 calls2 k' = (calls2, k', inr tt))
    by (intros; by apply init_handles_bound).
  repeat split.
  - exact Hone.
  - intros. unfold get_c_wrapper. by rewrite Hone.
  - intros. unfold getitem. by rewrite Hone.
  - induction ds as [|d2 ds IH]; intros calls2; [reflexivity|].
    simpl. rewrite Hone. apply IH.
Qed.

(** ** The warp-count attribute *)

Lemma get_num_warps_cases (src : string) :
  let warps := Re.findall ttgir_num_warps_pattern src in
  let groups := Re.findall num_warp_groups_pattern src in
  (length warps <> 1%nat ->
   _get_num_warps_from_ir_str src = inl (AssertionError msg_num_warps))
  /\ (forall m, warps = [m] -> groups = [] ->
      _get_num_warps_from_ir_str src = inr (int_of_digits m))
  /\ (forall m g, warps = [m] -> groups = [g] ->
      _get_num_warps_from_ir_str src = inr (int_of_digits m * int_of_digits g))
  /\ (forall m, warps = [m] -> (1 < length groups)%nat ->
      _get_num_warps_from_ir_str src = inl (AssertionError msg_warp_groups)).
Proof.
  intros warps groups. unfold _get_num_warps_from_ir_str.
  fold warps. fold groups.
  split; [|split; [|split]].
  - destruct warps as [|m [|m' ws]]; simpl; intros Hlen; try reflexivity. lia.
  - by intros m -> ->.
  - by intros m g -> ->.
  - intros m -> Hlen. destruct groups as [|g [|g' gs]]; simpl in Hlen; try lia.
    reflexivity.
Qed.



(** ** The world monad *)

Lemma with_trace_nil w : with_trace w [] = w.
Proof. destruct w. unfold with_trace; simpl. by rewrite app_nil_r. Qed.

Lemma with_trace_app w a b : with_trace (with_trace w a) b = with_trace w (a ++ b).
Proof. unfold with_trace; simpl. by rewrite app_assoc. Qed.

Lemma with_files_trace w files tr :
  with_trace (with_files w files) tr = with_files (with_trace w tr) files.
Proof. reflexivity. Qed.

Lemma with_files_files w f1 f2 : with_files (with_files w f1) f2 = with_files w f2.
Proof. reflexivity. Qed.

Lemma with_files_same w : with_files w (w_files w) = w.
Proof. by destruct w. Qed.

Lemma log_spec e w : log e w = (with_trace w [e], inr tt).
Proof. reflexivity. Qed.

Lemma put_spec hash data name w :
  put hash data name w =
    (with_files (with_trace w [EPut hash name data])
                (write_file hash name data (w_files w)),
     inr {| p_dir := hash; p_name := name |}).
Proof. reflexivity. Qed.

Lemma put_group_spec hash name g w :
  put_group hash name g w =
    (with_group (with_trace w [EPutGroup hash name g]) hash name g, inr tt).
Proof. reflexivity. Qed.

Lemma get_group_spec hash name w :
  get_group hash name w =
    (with_trace w [EGetGroup hash name], inr (w_groups w !! (hash, name))).
Proof. reflexivity. Qed.

Lemma read_text_trace p w : (read_text p w).1 = with_trace w [EReadText p].
Proof. reflexivity. Qed.

Lemma bind_ok {A B} (m : M A) (k : A -> M B) w w' a :
  m w = (w', inr a) -> bind m k w = k a w'.
Proof. intros E. unfold bind. by rewrite E. Qed.

Lemma bind_err {A B} (m : M A) (k : A -> M B) w w' e :
  m w = (w', inl e) -> bind m k w = (w', inl e).
Proof. intros E. unfold bind. by rewrite E. Qed.

(** ** Computations only append to the trace *)

Create HintDb extends.

Lemma extends_ret {A} (a : A) : extends (ret a).
Proof. intros w. split; [exists []; simpl; by rewrite app_nil_r | done]. Qed.

Lemma extends_raise {A} e : extends (raise e : M A).
Proof. intros w. split; [exists []; simpl; by rewrite app_nil_r | done]. Qed.

Lemma extends_lift {A} (r : result A) : extends (lift r).
Proof. intros w. split; [exists []; simpl; by rewrite app_nil_r | done]. Qed.

Lemma extends_get_hash_seed : extends get_hash_seed.
Proof. intros w. split; [exists []; simpl; by rewrite app_nil_r | done]. Qed.

Lemma extends_get_env_vars : extends get_env_vars.
Proof. intros w. split; [exists []; simpl; by rewrite app_nil_r | done]. Qed.

Lemma extends_log e : extends (log e).
Proof. intros w. split; [by exists [e] | done]. Qed.

Lemma extends_get_group hash name : extends (get_group hash name).
Proof. intros w. split; [by exists [EGetGroup hash name] | done]. Qed.

Lemma extends_put hash data name : extends (put hash data name).
Proof. intros w. split; [by exists [EPut hash name data] | done]. Qed.

Lemma extends_put_group hash name g : extends (put_group hash name g).
Proof. intros w. split; [by exists [EPutGroup hash name g] | done]. Qed.

Lemma extends_read_text p : extends (read_text p).
Proof. intros w. split; [by exists [EReadText p] | done]. Qed.

Lemma extends_bind {A B} (m : M A) (k : A -> M B) :
  extends m -> (forall a, extends (k a)) -> extends (bind m k).
Proof.
  intros Hm Hk w. destruct (Hm w) as [[tr Htr] Henv]. unfold bind.
  destruct (m w) as [w' [e|a]]; simpl in *.
  - split; [by exists tr | done].
  - destruct (Hk a w') as [[tr' Htr'] Henv'].
    split; [|congruence]. exists (tr ++ tr'). rewrite Htr', Htr. by rewrite app_assoc.
Qed.

Lemma extends_world {A} (f : World -> result A) : extends (fun w => (w, f w)).
Proof. intros w. split; [exists []; simpl; by rewrite app_nil_r | done]. Qed.

#[global] Hint Resolve extends_ret extends_raise extends_lift extends_get_env_vars
  extends_get_hash_seed
  extends_log extends_get_group extends_put extends_put_group extends_read_text
  extends_world : extends.

Ltac extends_steps :=
  repeat first
    [ solve [auto with extends]
    | apply extends_bind; [| intros ?] ].

Lemma extends_run_stages hash name stages : forall acc,
  extends (run_stages hash name stages acc).
Proof.
  induction stages as [|st rest IH]; intros [[module md] group]; simpl.
  - auto with extends.
  - apply extends_bind; [|intros ?; apply IH].
    unfold stage_step, call_stage. extends_steps.
Qed.

Lemma extends_init `{Runtime} so_path mp : extends (CompiledKernel_init so_path mp).
Proof.
  unfold CompiledKernel_init. extends_steps.
  intros w. split; [exists []; rewrite app_nil_r|];
    by destruct (glob_asm _ _ !! binary_ext).
Qed.

#[global] Hint Resolve extends_run_stages extends_init : extends.

Lemma extends_compile `{Runtime} backend src_arg device_type signature config
    constants extern_libs kwargs :
  extends (compile backend src_arg device_type signature config constants
                   extern_libs kwargs).
Proof.
  unfold compile. extends_steps.
  match goal with |- context [match ?X with Some _ => _ | None => _ end] =>
    destruct X end.
  - extends_steps.
  - extends_steps. match goal with a : _ * _ * _ |- _ => destruct a as [[? ?] ?] end.
    extends_steps. rewrite lookup_insert_eq. auto with extends.
Qed.

(** ** The lowering loop against the design's chain *)

Lemma run_stages_spec hash name stages : forall module md group w,
  run_stages hash name stages (module, md, group) w =
    (with_files (with_trace w (chain_events hash name stages module md))
                (chain_files hash name stages module md (w_files w)),
     match chain_result stages module md with
     | inr (module', md') =>
       inr (module', md', chain_group hash name stages module md group)
     | inl e => inl e
     end).
Proof.
  induction stages as [|[ext lower] rest IH]; intros module md group w.
  - simpl. by rewrite with_trace_nil, with_files_same.
  - simpl. unfold bind at 1. unfold stage_step, call_stage.
    unfold bind at 1. unfold bind at 1. rewrite log_spec. unfold lift. simpl fst; simpl snd.
    destruct (lower module md) as [e|[module' md']] eqn:El.
    + by destruct w.
    + unfold bind at 1. rewrite put_spec. unfold ret. cbn [fst snd].
      rewrite IH. f_equal.
      rewrite with_files_trace, with_trace_app, with_files_files, with_trace_app.
      reflexivity.
Qed.

(** ** The design's chain *)

Lemma chain_events_app hash name pre : forall post module md,
  chain_events hash name (pre ++ post) module md =
    chain_events hash name pre module md ++
    match chain_result pre module md with
    | inr (module', md') => chain_events hash name post module' md'
    | inl _ => []
    end.
Proof.
  induction pre as [|[ext lower] pre IH]; intros post module md; [reflexivity|].
  simpl. destruct (lower module md) as [e|[module' md']]; [reflexivity|].
  by rewrite IH.
Qed.

Lemma chain_result_app pre : forall post module md,
  chain_result (pre ++ post) module md =
    match chain_result pre module md with
    | inr (module', md') => chain_result post module' md'
    | inl e => inl e
    end.
Proof.
  induction pre as [|[ext lower] pre IH]; intros post module md; [reflexivity|].
  simpl. destruct (lower module md) as [e|[module' md']]; [reflexivity|]. apply IH.
Qed.

Lemma chain_events_kinds hash name stages : forall module md,
  Forall (fun e => is_group_write e = false /\ is_make_ir e = false)
         (chain_events hash name stages module md).
Proof.
  induction stages as [|[ext lower] rest IH]; intros module md; simpl; [constructor|].
  constructor; [done|].
  destruct (lower module md) as [e|[module' md']]; [constructor|].
  constructor; [done|]. apply IH.
Qed.

Lemma chain_events_no_stub hash name stages : forall module md,
  omap stub_metadata (chain_events hash name stages module md) = [].
Proof.
  induction stages as [|[ext lower] rest IH]; intros module md; simpl; [done|].
  destruct (lower module md) as [e|[module' md']]; simpl; [done|]. apply IH.
Qed.

(** The stages called are an initial part of the chain, all of it when
    no stage raises. *)
Lemma chain_events_exts hash name stages : forall module md,
  omap stage_ext (chain_events hash name stages module md) `prefix_of` dict_keys stages
  /\ (is_ok (chain_result stages module md) = true ->
      omap stage_ext (chain_events hash name stages module md) = dict_keys stages).
Proof.
  induction stages as [|[ext lower] rest IH]; intros module md; simpl.
  - split; [apply prefix_nil | done].
  - destruct (lower module md) as [e|[module' md']]; simpl.
    + split; [|done]. apply prefix_cons, prefix_nil.
    + destruct (IH module' md') as [Hp Hall]. split.
      * by apply prefix_cons.
      * intros Hok. f_equal. by apply Hall.
Qed.

(** A field that every stage preserves reaches every stage call, and
    the end of the chain, with the value it started with. *)
Lemma chain_preserves field stages : forall hash name module md,
  Forall (preserves_field field) stages ->
  Forall (fun e => forall md', stage_metadata e = Some md' ->
                               md' !! field = md !! field)
         (chain_events hash name stages module md)
  /\ (forall module' md', chain_result stages module md = inr (module', md') ->
                          md' !! field = md !! field).
Proof.
  induction stages as [|[ext lower] rest IH]; intros hash name module md Hall; simpl.
  - split; [constructor|]. by intros ? ? [= _ <-].
  - apply Forall_cons in Hall as [Hst Hrest].
    destruct (lower module md) as [e|[module' md']] eqn:El.
    + split; [|done]. constructor; [|constructor]. simpl. by intros ? [= <-].
    + destruct (IH hash name module' md' Hrest) as [Hev Hres].
      assert (Hkeep : md' !! field = md !! field) by exact (Hst _ _ _ _ El).
      split.
      * constructor; [simpl; by intros ? [= <-]|].
        constructor; [done|].
        eapply Forall_impl; [exact Hev|]. simpl. intros e He md'' Hmd.
        rewrite (He _ Hmd). exact Hkeep.
      * intros m'' md'' Hr. rewrite (Hres _ _ Hr). exact Hkeep.
Qed.

(** ** Dictionaries and [index] *)

Lemma dict_set_keys {V} k (v : V) d :
  dict_keys (dict_set k v d)
  = if decide (k ∈ dict_keys d) then dict_keys d else dict_keys d ++ [k].
Proof.
  unfold dict_keys. induction d as [|[k' v'] d IH]; cbn.
  - destruct (decide (k ∈ [])) as [Hin|]; [|done]. by apply elem_of_nil in Hin.
  - destruct (String.eqb_spec k' k) as [->|Hne]; cbn.
    + destruct (decide (k ∈ k :: d.*1)) as [|Hout]; [done|].
      exfalso. apply Hout, elem_of_cons; auto.
    + rewrite IH.
      destruct (decide (k ∈ d.*1)) as [Hin|Hout];
        destruct (decide (k ∈ k' :: d.*1)) as [Hin'|Hout']; try done.
      * exfalso. apply Hout', elem_of_cons; auto.
      * apply elem_of_cons in Hin' as [?|?]; congruence.
Qed.

Lemma dict_of_assignments_NoDup {V} (l : list (string * V)) :
  NoDup (dict_keys (dict_of_assignments l)).
Proof.
  unfold dict_of_assignments.
  assert (Hgen : forall d, NoDup (dict_keys d) ->
            NoDup (dict_keys (fold_left (fun d kv => dict_set kv.1 kv.2 d) l d))).
  { induction l as [|[k v] l IH]; intros d Hd; simpl; [done|].
    apply IH. rewrite dict_set_keys.
    destruct (decide (k ∈ dict_keys d)); [done|].
    apply NoDup_app. split; [done|]. split.
    - intros x Hx [->|[]%elem_of_nil]%elem_of_cons. done.
    - apply NoDup_singleton. }
  apply Hgen. constructor.
Qed.

Lemma list_index_spec x l i :
  list_index x l = inr i ->
  l !! i = Some x /\ x ∉ take i l.
Proof.
  revert i. induction l as [|y l IH]; intros i; simpl; [discriminate|].
  destruct (String.eqb_spec y x) as [->|Hne].
  - intros [= <-]. split; [done|]. simpl. apply not_elem_of_nil.
  - destruct (list_index x l) as [e|j]; [discriminate|].
    intros [= <-]. destruct (IH j eq_refl) as [Hl Hn]. split; [done|].
    simpl. intros [?|?]%elem_of_cons; congruence.
Qed.

Lemma list_index_complete x l :
  x ∈ l -> exists i, list_index x l = inr i.
Proof.
  induction l as [|y l IH]; [by intros ?%elem_of_nil|].
  intros Hin. simpl. destruct (String.eqb_spec y x) as [->|Hne]; [eauto|].
  apply elem_of_cons in Hin as [->|Hin]; [done|].
  destruct (IH Hin) as [i ->]. eauto.
Qed.

(** ** The two paths of [compile] *)

Lemma world_ext (a b : World) :
  w_env a = w_env b -> w_seed a = w_seed b -> w_files a = w_files b ->
  w_groups a = w_groups b -> w_trace a = w_trace b -> a = b.
Proof. destruct a, b. simpl. by intros -> -> -> -> ->. Qed.

Ltac same_world :=
  try (apply (f_equal2 pair); [|reflexivity]);
  apply world_ext; cbn; rewrite <- ?app_assoc; reflexivity.

Lemma init_trace `{Runtime} so_path mp w :
  w_trace (CompiledKernel_init so_path mp w).1 = w_trace w ++ [EReadText mp]
  /\ w_groups (CompiledKernel_init so_path mp w).1 = w_groups w
  /\ w_files (CompiledKernel_init so_path mp w).1 = w_files w.
Proof.
  unfold CompiledKernel_init, bind, read_text, lift, log. simpl.
  destruct (w_files w !! p_dir mp ≫= _) as [text|]; simpl; [|done].
  destruct (json_loads text) as [e|md]; simpl; [done|].
  destruct (glob_asm _ _ !! binary_ext); done.
Qed.

Lemma new_events_app w w' tr :
  w_trace w' = w_trace w ++ tr -> new_events w w' = tr.
Proof. intros E. unfold new_events. rewrite E. by rewrite drop_app_length. Qed.

Lemma init_result `{Runtime} so_path mp w k w' :
  CompiledKernel_init so_path mp w = (w', inr k) ->
  c_wrapper k = so_path /\ module k = None /\ function k = None
  /\ attrs k = metadata k
  /\ exists text, file_at w mp = Some text /\ json_loads text = inr (metadata k).
Proof.
  unfold CompiledKernel_init, bind, read_text, lift, log, file_at. simpl.
  destruct (w_files w !! p_dir mp ≫= _) as [text|]; simpl; [|discriminate].
  destruct (json_loads text) as [e|md] eqn:Ej; simpl; [discriminate|].
  destruct (glob_asm _ _ !! binary_ext); [|discriminate].
  intros [= _ <-]. simpl. eauto 10.
Qed.

Section CompileRun.
Context `{Runtime}.
Variables (backend : Backend) (src_arg : SourceArg) (device_type : value)
  (signature : option (odict string)) (config : InstanceDescriptor)
  (constants : option (odict value)) (extern_libs : value)
  (kwargs : gmap string value).
Variables (w : World) (options : gmap string value) (src_h : string).

Local Abbreviation src := (make_source src_arg signature constants config).
Local Abbreviation run :=
  (compile backend src_arg device_type signature config constants extern_libs kwargs).
Local Abbreviation hash :=
  (md5_hexdigest (cache_key (w_seed w) src_h (backend_hash backend)
                            (options_hash backend options) (w_env w))).
Local Abbreviation fname := (src_name src +:+ ".json").
Local Abbreviation stages := (dict_of_assignments (add_stages backend extern_libs options)).

Hypothesis Hrefine : update_options src (parse_options backend kwargs) = inr options.
Hypothesis Hhash : src_hash src = inr src_h.

Lemma compile_hit g metadata_path :
  w_groups w !! (hash, fname) = Some g ->
  g !! fname = Some metadata_path ->
  run w =
    let w1 := with_trace w [EGetGroup hash fname; EReadText metadata_path] in
    match w_files w !! p_dir metadata_path ≫= (.!! p_name metadata_path) with
    | None => (w1, inl (FileNotFoundError (path_str metadata_path)))
    | Some text =>
      match json_loads text with
      | inl e => (w1, inl e)
      | inr metadata =>
        CompiledKernel_init (make_launcher_stub backend src metadata) metadata_path
          (with_trace w1 [EMakeStub metadata])
      end
    end.
Proof.
  intros Hg Hmp. unfold compile. unfold bind at 1, lift at 1. rewrite Hrefine.
  unfold bind at 1, lift at 1. rewrite Hhash.
  unfold bind at 1, get_env_vars at 1.
  unfold bind at 1, get_hash_seed at 1.
  unfold bind at 1. rewrite get_group_spec. cbn [fst snd w_env with_trace].
  rewrite Hg. change (default ∅ (Some g)) with g. rewrite Hmp.
  unfold bind at 1, read_text at 1, bind at 1. rewrite log_spec.
  cbn [fst snd w_files with_trace].
  destruct (w_files w !! p_dir metadata_path ≫= _) as [text|]; [|same_world].
  unfold bind at 1, lift at 1.
  destruct (json_loads text) as [e|md]; [same_world|].
  unfold bind at 1. rewrite log_spec. cbn zeta. f_equal. same_world.
Qed.

Lemma compile_miss md0 first module0 :
  default ∅ (w_groups w !! (hash, fname)) !! fname = None ->
  folded_args_metadata signature config
    (initial_metadata device_type options (w_env w)) = inr md0 ->
  list_index (src_ext src) (dict_keys stages) = inr first ->
  make_ir src options = inr module0 ->
  run w =
    let group0 := default ∅ (w_groups w !! (hash, fname)) in
    let chain := drop first stages in
    let w2 :=
      with_files
        (with_trace w ([EGetGroup hash fname; EAddStages; EMakeIR]
                       ++ chain_events hash (src_name src) chain module0 md0))
        (chain_files hash (src_name src) chain module0 md0 (w_files w)) in
    match chain_result chain module0 md0 with
    | inl e => (w2, inl e)
    | inr (_, md) =>
      let mp := {| p_dir := hash; p_name := fname |} in
      let group := <[fname := mp]>
                     (chain_group hash (src_name src) chain module0 md0 group0) in
      CompiledKernel_init (make_launcher_stub backend src md) mp
        (with_group
           (with_files
              (with_trace w2 [EPut hash fname (json_dumps md);
                              EPutGroup hash fname group; EMakeStub md])
              (write_file hash fname (json_dumps md) (w_files w2)))
           hash fname group)
    end.
Proof.
  intros Hmiss Hmd Hidx Hir. unfold compile. unfold bind at 1, lift at 1.
  rewrite Hrefine. unfold bind at 1, lift at 1. rewrite Hhash.
  unfold bind at 1, get_env_vars at 1.
  unfold bind at 1, get_hash_seed at 1.
  unfold bind at 1. rewrite get_group_spec. cbn [fst snd w_env with_trace].
  rewrite Hmiss.
  unfold bind at 1, get_env_vars at 1. cbn [fst snd w_env with_trace].
  unfold bind at 1, lift at 1. rewrite Hmd.
  unfold bind at 1. rewrite log_spec.
  unfold bind at 1, lift at 1. rewrite Hidx.
  unfold bind at 1. rewrite log_spec.
  unfold bind at 1, lift at 1. rewrite Hir.
  unfold bind at 1. rewrite run_stages_spec. cbn zeta.
  destruct (chain_result _ module0 md0) as [e|[m md]].
  - f_equal. same_world.
  - unfold bind at 1. rewrite put_spec.
    unfold bind at 1. rewrite put_group_spec.
    unfold bind at 1. rewrite log_spec.
    rewrite lookup_insert_eq. f_equal. same_world.
Qed.

Lemma compile_hit_run g metadata_path :
  w_groups w !! (hash, fname) = Some g ->
  g !! fname = Some metadata_path ->
  let out := run w in
  Forall (fun e => is_stage_call e = false /\ is_make_ir e = false
                   /\ is_write e = false /\ e <> EAddStages)
         (new_events w out.1)
  /\ w_files out.1 = w_files w /\ w_groups out.1 = w_groups w
  /\ (forall text md,
        file_at w metadata_path = Some text -> json_loads text = inr md ->
        new_events w out.1
        = [EGetGroup hash fname; EReadText metadata_path; EMakeStub md;
           EReadText metadata_path]
        /\ forall k, out.2 = inr k ->
             metadata k = md
             /\ c_wrapper k = make_launcher_stub backend src md
             /\ module k = None).
Proof.
  intros Hg Hmp out. subst out. rewrite (compile_hit _ _ Hg Hmp). cbn zeta.
  unfold file_at.
  destruct (w_files w !! p_dir metadata_path ≫= _) as [text|] eqn:Ef.
  2:{ split; [|done].
      rewrite (new_events_app _ _ [EGetGroup hash fname; EReadText metadata_path])
        by done.
      repeat constructor; done. }
  destruct (json_loads text) as [e|md] eqn:Ej.
  { split; [|repeat split; try done; congruence].
    rewrite (new_events_app _ _ [EGetGroup hash fname; EReadText metadata_path])
      by done.
    repeat constructor; done. }
  match goal with |- context [CompiledKernel_init ?so ?mp ?w0] =>
    destruct (init_trace so mp w0) as (Ht & Hgr & Hfi);
    pose proof (init_result so mp w0) as Hres
  end.
  assert (Hnew : new_events w (CompiledKernel_init
                   (make_launcher_stub backend src md) metadata_path
                   (with_trace (with_trace w [EGetGroup hash fname;
                                              EReadText metadata_path])
                               [EMakeStub md])).1
                 = [EGetGroup hash fname; EReadText metadata_path; EMakeStub md;
                    EReadText metadata_path]).
  { apply new_events_app. rewrite Ht. simpl. by rewrite <- !app_assoc. }
  rewrite Hnew. split; [repeat constructor; done|].
  split; [by rewrite Hfi|]. split; [by rewrite Hgr|].
  intros text' md' [= <-] Hmd'. assert (md' = md) as -> by congruence.
  split; [done|]. intros k Hk.
  destruct (CompiledKernel_init _ _ _) as [w' r] eqn:Ei. simpl in Hk. subst r.
  destruct (Hres k w' eq_refl) as (Hc & Hm & _ & _ & text2 & Hf2 & Hj2).
  unfold file_at in Hf2. simpl in Hf2. rewrite Ef in Hf2.
  injection Hf2 as <-. split; [congruence|done].
Qed.


Lemma compile_miss_run md0 first module0 :
  default ∅ (w_groups w !! (hash, fname)) !! fname = None ->
  folded_args_metadata signature config
    (initial_metadata device_type options (w_env w)) = inr md0 ->
  list_index (src_ext src) (dict_keys stages) = inr first ->
  make_ir src options = inr module0 ->
  let chain := drop first stages in
  let group0 := default ∅ (w_groups w !! (hash, fname)) in
  let mp := {| p_dir := hash; p_name := fname |} in
  let out := run w in
  let started :=
    [EGetGroup hash fname; EAddStages; EMakeIR]
    ++ chain_events hash (src_name src) chain module0 md0 in
  match chain_result chain module0 md0 with
  | inl e =>
    new_events w out.1 = started
    /\ w_groups out.1 = w_groups w
    /\ w_files out.1 = chain_files hash (src_name src) chain module0 md0 (w_files w)
    /\ out.2 = inl e
  | inr (_, md) =>
    let group := <[fname := mp]>
                   (chain_group hash (src_name src) chain module0 md0 group0) in
    new_events w out.1
    = started ++ [EPut hash fname (json_dumps md); EPutGroup hash fname group;
                  EMakeStub md; EReadText mp]
    /\ w_groups out.1 = <[(hash, fname) := group]> (w_groups w)
    /\ w_files out.1
       = write_file hash fname (json_dumps md)
           (chain_files hash (src_name src) chain module0 md0 (w_files w))
    /\ forall k, out.2 = inr k ->
         c_wrapper k = make_launcher_stub backend src md /\ module k = None
  end.
Proof.
  intros Hmiss Hmd Hidx Hir chain group0 mp out started. subst out.
  rewrite (compile_miss _ _ _ Hmiss Hmd Hidx Hir). cbn zeta.
  fold chain. fold group0.
  destruct (chain_result chain module0 md0) as [e|[m md]].
  - split; [|done]. by apply new_events_app.
  - match goal with |- context [CompiledKernel_init ?so ?p ?w0] =>
      destruct (init_trace so p w0) as (Ht & Hgr & Hfi);
      pose proof (init_result so p w0) as Hres
    end.
    split; [|split; [|split]].
    + apply new_events_app. rewrite Ht. cbn. by rewrite <- !app_assoc.
    + by rewrite Hgr.
    + by rewrite Hfi.
    + intros k Hk.
      destruct (CompiledKernel_init _ _ _) as [w' r] eqn:Ei. simpl in Hk. subst r.
      destruct (Hres k w' eq_refl) as (Hc & Hm & _). done.
Qed.

(** C2. In a run that starts from a miss, every stage's artifact is put
    into the cache right after the stage has produced it.  When all
    stages succeed the group mapping is written exactly once, after the
    last stage call and after the last artifact, and it holds the
    metadata file.  When a stage raises, the run ends with that
    exception, no group has been written, the groups of the store are
    what they were, and a later probe for the same key again finds no
    metadata file. *)
Theorem compile_commit_point md0 first module0 :
  default ∅ (w_groups w !! (hash, fname)) !! fname = None ->
  folded_args_metadata signature config
    (initial_metadata device_type options (w_env w)) = inr md0 ->
  list_index (src_ext src) (dict_keys stages) = inr first ->
  make_ir src options = inr module0 ->
  let chain := drop first stages in
  let out := run w in
  let evs := new_events w out.1 in
  (exists tail,
      evs = [EGetGroup hash fname; EAddStages; EMakeIR]
            ++ chain_events hash (src_name src) chain module0 md0 ++ tail
      /\ Forall (fun e => is_stage_call e = false) tail)
  /\ (forall module' md,
        chain_result chain module0 md0 = inr (module', md) ->
        exists before group after,
          evs = before ++ EPutGroup hash fname group :: after
          /\ Forall (fun e => is_group_write e = false) before
          /\ Forall (fun e => is_write e = false /\ is_stage_call e = false) after
          /\ group !! fname = Some {| p_dir := hash; p_name := fname |}
          /\ w_groups out.1 !! (hash, fname) = Some group)
  /\ (forall e,
        chain_result chain module0 md0 = inl e ->
        out.2 = inl e
        /\ Forall (fun e => is_group_write e = false) evs
        /\ w_groups out.1 = w_groups w
        /\ (get_group hash fname out.1).2 = inr (w_groups w !! (hash, fname))
        /\ default ∅ (w_groups out.1 !! (hash, fname)) !! fname = None).
Proof.
  intros Hmiss Hmd Hidx Hir chain out evs.
  pose proof (compile_miss_run _ _ _ Hmiss Hmd Hidx Hir) as Hrun.
  cbn zeta in Hrun. fold chain out evs in Hrun.
  pose proof (chain_events_kinds hash (src_name src) chain module0 md0) as Hkinds.
  destruct (chain_result chain module0 md0) as [e|[m md]] eqn:Er.
  - destruct Hrun as (Hev & Hgr & _ & Hout).
    split; [|split].
    + exists []. rewrite app_nil_r. split; [exact Hev | constructor].
    + intros ? ? [=].
    + intros e' [= <-]. split; [done|]. split; [|split; [done|split]].
      * rewrite Hev. apply Forall_app. split; [repeat constructor|].
        eapply Forall_impl; [exact Hkinds|]. by intros ? [? _].
      * rewrite get_group_spec. simpl. by rewrite Hgr.
      * by rewrite Hgr.
  - destruct Hrun as (Hev & Hgr & _ & _).
    split; [|split].
    + eexists. split; [rewrite Hev; by rewrite <- app_assoc|]. repeat constructor.
    + intros m' md' [= <- <-].
      eexists ([EGetGroup hash fname; EAddStages; EMakeIR]
               ++ chain_events hash (src_name src) chain module0 md0
               ++ [EPut hash fname (json_dumps md)]), _, _.
      split; [rewrite Hev; rewrite <- !app_assoc; reflexivity|].
      split; [|split; [|split]].
      * apply Forall_app. split; [repeat constructor|].
        apply Forall_app. split; [|repeat constructor].
        eapply Forall_impl; [exact Hkinds|]. by intros ? [? _].
      * repeat constructor.
      * apply lookup_insert_eq.
      * rewrite Hgr. apply lookup_insert_eq.
    + intros ? [=].
Qed.

Lemma compile_miss_exts md0 first module0 :
  default ∅ (w_groups w !! (hash, fname)) !! fname = None ->
  folded_args_metadata signature config
    (initial_metadata device_type options (w_env w)) = inr md0 ->
  list_index (src_ext src) (dict_keys stages) = inr first ->
  make_ir src options = inr module0 ->
  let chain := drop first stages in
  let evs := new_events w (run w).1 in
  dict_keys stages !! first = Some (src_ext src)
  /\ (src_ext src ∉ take first (dict_keys stages))
  /\ (forall ext, ext ∈ dict_keys (take first stages) -> ext ∉ omap stage_ext evs)
  /\ (omap stage_ext evs `prefix_of` dict_keys chain)
  /\ (is_ok (chain_result chain module0 md0) = true ->
      omap stage_ext evs = dict_keys chain).
Proof.
  intros Hmiss Hmd Hidx Hir chain evs.
  pose proof (compile_miss_run _ _ _ Hmiss Hmd Hidx Hir) as Hrun.
  cbn zeta in Hrun. fold chain evs in Hrun.
  destruct (list_index_spec _ _ _ Hidx) as [Hat Hbefore].
  destruct (chain_events_exts hash (src_name src) chain module0 md0) as [Hpre Hall].
  assert (Hexts : omap stage_ext evs
                  = omap stage_ext (chain_events hash (src_name src) chain module0 md0)).
  { destruct (chain_result chain module0 md0) as [e|[m md]].
    - destruct Hrun as (-> & _). reflexivity.
    - destruct Hrun as (-> & _). rewrite omap_app. simpl.
      by rewrite app_nil_r. }
  split; [exact Hat|]. split; [exact Hbefore|].
  split; [|split; [by rewrite Hexts|by rewrite Hexts]].
  intros ext Hin Hcalled. rewrite Hexts in Hcalled.
  assert (Hlate : ext ∈ dict_keys chain).
  { destruct Hpre as [rest ->]. apply elem_of_app. by left. }
  pose proof (dict_of_assignments_NoDup (add_stages backend extern_libs options)) as Hnd.
  rewrite <- (take_drop first stages) in Hnd.
  unfold dict_keys in Hnd. rewrite fmap_app in Hnd.
  apply NoDup_app in Hnd as (_ & Hdisj & _). exact (Hdisj ext Hin Hlate).
Qed.

(** C4. In a run that starts from a miss, the first stage called is the
    one at the first position of the source's format in the stage chain;
    no stage before that position is called; the stages from that
    position on are called in the order of the chain, all of them unless
    one raises; the first is called on the initial module and metadata;
    each stage is called on the module and metadata that the stages
    before it produced, its artifact is put into the cache under
    [{name}.{ext}] right after the call, and the next stage is called on
    its result. *)
Theorem compile_stage_order md0 first module0 :
  default ∅ (w_groups w !! (hash, fname)) !! fname = None ->
  folded_args_metadata signature config
    (initial_metadata device_type options (w_env w)) = inr md0 ->
  list_index (src_ext src) (dict_keys stages) = inr first ->
  make_ir src options = inr module0 ->
  let chain := drop first stages in
  let out := run w in
  let evs := new_events w out.1 in
  dict_keys stages !! first = Some (src_ext src)
  /\ (src_ext src ∉ take first (dict_keys stages))
  /\ (forall ext, ext ∈ dict_keys (take first stages) -> ext ∉ omap stage_ext evs)
  /\ (omap stage_ext evs `prefix_of` dict_keys chain)
  /\ (is_ok (chain_result chain module0 md0) = true ->
      omap stage_ext evs = dict_keys chain)
  /\ (forall pre ext lower post module md,
        chain = pre ++ (ext, lower) :: post ->
        chain_result pre module0 md0 = inr (module, md) ->
        exists before after,
          evs = before ++ EStage ext module md :: after
          /\ match lower module md with
             | inr (module', md') =>
               exists tail,
                 after = EPut hash (src_name src +:+ "." +:+ ext) module' :: tail
                 /\ forall ext2 lower2 post',
                      post = (ext2, lower2) :: post' ->
                      exists tail', tail = EStage ext2 module' md' :: tail'
             | inl e => after = [] /\ out.2 = inl e
             end).
Proof.
  intros Hmiss Hmd Hidx Hir chain out evs.
  pose proof (compile_miss_run _ _ _ Hmiss Hmd Hidx Hir) as Hrun.
  cbn zeta in Hrun. fold chain out evs in Hrun.
  destruct (compile_miss_exts _ _ _ Hmiss Hmd Hidx Hir)
    as (Hat & Hbefore & Hskip & Hpre & Hall).
  split; [exact Hat|]. split; [exact Hbefore|].
  split; [exact Hskip|]. split; [exact Hpre|]. split; [exact Hall|].
  intros pre ext lower post module md Hchain Hpre_ok.
    assert (Hsplit : chain_events hash (src_name src) chain module0 md0
                     = chain_events hash (src_name src) pre module0 md0
                       ++ chain_events hash (src_name src) ((ext, lower) :: post) module md).
    { rewrite Hchain, chain_events_app. by rewrite Hpre_ok. }
    assert (Hres : chain_result chain module0 md0
                   = chain_result ((ext, lower) :: post) module md).
    { rewrite Hchain, chain_result_app. by rewrite Hpre_ok. }
    simpl in Hsplit, Hres.
    exists ([EGetGroup hash fname; EAddStages; EMakeIR]
            ++ chain_events hash (src_name src) pre module0 md0).
    destruct (lower module md) as [e|[module' md']] eqn:El.
    + exists []. rewrite Hres in Hrun. destruct Hrun as (Hev & _ & _ & Hout).
      split; [|done]. rewrite Hev, Hsplit. by rewrite <- !app_assoc.
    + destruct (chain_result chain module0 md0) as [e|[m2 md2]] eqn:Er.
      * destruct Hrun as (Hev & _).
        eexists. split; [rewrite Hev, Hsplit; rewrite <- !app_assoc; reflexivity|].
        eexists. split; [reflexivity|].
        intros ext2 lower2 post' ->. simpl. eauto.
      * destruct Hrun as (Hev & _).
        eexists. split; [rewrite Hev, Hsplit; rewrite <- !app_assoc; reflexivity|].
        eexists. split; [reflexivity|].
        intros ext2 lower2 post' ->. simpl. eauto.
Qed.

Lemma initial_metadata_field field v :
  (list_to_map (w_env w) : gmap string string) !! field = None ->
  options !! field = Some v ->
  initial_metadata device_type options (w_env w) !! field = Some v.
Proof.
  intros Henv Hopt. unfold initial_metadata.
  apply lookup_union_Some_l, lookup_union_Some_raw. right.
  split; [|exact Hopt]. by rewrite lookup_fmap, Henv.
Qed.

Lemma folded_args_field md md0 field :
  field <> "ids_of_folded_args" ->
  folded_args_metadata signature config md = inr md0 ->
  md0 !! field = md !! field.
Proof.
  intros Hne. unfold folded_args_metadata.
  destruct signature; [|by intros [= <-]].
  destruct (ids_of_folded_args config); [|discriminate].
  intros [= <-]. by rewrite lookup_insert_ne.
Qed.

(** A run from a [ttgir] text, for any warp count [n] that refinement
    extracts. *)
Lemma compile_ttgir_run i n md0 first module0 module' md :
  src_arg = ArgPath i ->
  ir_ext i = "ttgir" ->
  _get_num_warps_from_ir_str (ir_src i) = inr n ->
  default ∅ (w_groups w !! (hash, fname)) !! fname = None ->
  folded_args_metadata signature config
    (initial_metadata device_type options (w_env w)) = inr md0 ->
  list_index (src_ext src) (dict_keys stages) = inr first ->
  make_ir src options = inr module0 ->
  Forall (preserves_field "num_warps") (drop first stages) ->
  (list_to_map (w_env w) : gmap string string) !! "num_warps" = None ->
  chain_result (drop first stages) module0 md0 = inr (module', md) ->
  let out := run w in
  let evs := new_events w out.1 in
  options = <["num_warps" := VInt n]> (parse_options backend kwargs)
  /\ Forall (fun e => forall md', stage_metadata e = Some md' ->
                                  md' !! "num_warps" = Some (VInt n)) evs
  /\ md !! "num_warps" = Some (VInt n)
  /\ file_at out.1 {| p_dir := hash; p_name := fname |} = Some (json_dumps md)
  /\ omap stub_metadata evs = [md]
  /\ dict_keys stages !! first = Some "ttgir"
  /\ omap stage_ext evs = dict_keys (drop first stages)
  /\ (forall ext, ext ∈ dict_keys (take first stages) -> ext ∉ omap stage_ext evs).
Proof.
  intros Hsrc Hext Hwarps Hmiss Hmd Hidx Hir Hkeep Henv Hres out evs.
  assert (Hopt : options = <["num_warps" := VInt n]> (parse_options backend kwargs)).
  { pose proof Hrefine as Hr. rewrite Hsrc in Hr. simpl in Hr.
    unfold IRSource_update_options in Hr. rewrite Hext, Hwarps in Hr.
    simpl in Hr. congruence. }
  assert (Hmd0 : md0 !! "num_warps" = Some (VInt n)).
  { rewrite (folded_args_field _ _ "num_warps" ltac:(done) Hmd).
    apply initial_metadata_field; [exact Henv|].
    rewrite Hopt. apply lookup_insert_eq. }
  destruct (chain_preserves "num_warps" _ hash (src_name src) module0 md0 Hkeep)
    as [Hcalls Hend].
  pose proof (compile_miss_run _ _ _ Hmiss Hmd Hidx Hir) as Hrun.
  destruct (compile_miss_exts _ _ _ Hmiss Hmd Hidx Hir)
    as (Hat & _ & Hskip & _ & Hall).
  cbn zeta in Hrun, Hall, Hskip. fold out evs in Hrun, Hall, Hskip.
  rewrite Hres in Hrun, Hall. destruct Hrun as (Hev & _ & Hfiles & _).
  split; [exact Hopt|]. split; [|split; [|split; [|split; [|split; [|split]]]]].
  - rewrite Hev. apply Forall_app. split; [apply Forall_app; split|].
    + repeat constructor; simpl; discriminate.
    + eapply Forall_impl; [exact Hcalls|]. simpl. intros e He md' Hmd'.
      by rewrite (He _ Hmd').
    + repeat constructor; simpl; discriminate.
  - by rewrite (Hend _ _ Hres).
  - unfold file_at. rewrite Hfiles. unfold write_file. simpl.
    rewrite lookup_insert_eq. simpl. apply lookup_insert_eq.
  - rewrite Hev, !omap_app. simpl. by rewrite chain_events_no_stub.
  - rewrite Hat, Hsrc. simpl. by rewrite Hext.
  - by apply Hall.
  - exact Hskip.
Qed.


End CompileRun.

(** ** A failed binding attempt *)

(** C9, as stated, does not hold: a handle that failed to bind with
    [OutOfResources] runs the whole attempt again on the next access.
    With a requirement of 70000 bytes on a device offering 49152, the
    second call queries the device a second time. *)
Lemma init_handles_failure_not_latched :
  ~ (forall d calls k calls' k' r a n,
       _init_handles d calls k = (calls', k', inl (OutOfResources r a n)) ->
       (_init_handles d calls' k').1.1 = calls').
Proof.
  intros Hclaim.
  specialize (Hclaim (Demo.gpu 49152) [] (Demo.handle 70000)
                [QueryDevice 0] (Demo.handle 70000) 70000 49152 "shared memory"
                eq_refl).
  vm_compute in Hclaim. congruence.
Qed.

(** C9, amended.  A binding attempt that fails with [OutOfResources]
    leaves the handle exactly as it was, hence unbound, and records
    nothing about the failure: every later call of [_init_handles] queries
    the device again; it raises [OutOfResources] again when the
    requirement still exceeds the maximum the driver then reports, and
    binds when it no longer does. *)
Theorem init_handles_retries_after_failure d calls k calls' k' r a n :
  _init_handles d calls k = (calls', k', inl (OutOfResources r a n)) ->
  k' = k /\ bound k' = false
  /\ calls' = calls ++ [QueryDevice (get_current_device d)]
  /\ forall d2 calls2,
       let max2 := max_shared_mem d2 (get_current_device d2) in
       let out := _init_handles d2 calls2 k' in
       (exists more,
           out.1.1 = calls2 ++ QueryDevice (get_current_device d2) :: more)
       /\ (max2 < r ->
           out = (calls2 ++ [QueryDevice (get_current_device d2)], k',
                  inl (OutOfResources r max2 "shared memory")))
       /\ (r <= max2 -> is_Some (attrs k' !! "name") ->
           out.2 = inr tt /\ bound out.1.2 = true).
Proof.
  intros Hfail.
  assert (Hfacts : module k = None /\ attrs k !! "shared" = Some (VInt r)
                   /\ k' = k /\ calls' = calls ++ [QueryDevice (get_current_device d)]).
  { revert Hfail. unfold _init_handles, attr_shared.
    destruct (module k); [discriminate|].
    destruct (attrs k !! "shared") as [[| |z| |]|]; try discriminate.
    destruct (_ <? _).
    - by intros [= <- <- <- _ _].
    - unfold attr_name. destruct (attrs k !! "name"); [|discriminate].
      by destruct (load_binary _ _ _ _ _) as [[[? ?] ?] ?]. }
  destruct Hfacts as (Hm & Hs & -> & ->).
  split; [reflexivity|]. split; [by unfold bound; rewrite Hm|].
  split; [reflexivity|].
  intros d2 calls2 max2 out. subst out.
  rewrite (init_handles_unbound _ _ _ _ Hm Hs). cbn zeta. fold max2.
  split; [|split].
  - destruct (max2 <? r); [by exists []|].
    destruct (attr_name k); [by exists []|].
    destruct (load_binary _ _ _ _ _) as [[[? ?] ?] ?]. eauto.
  - intros Hlt. apply Z.ltb_lt in Hlt. by rewrite Hlt.
  - intros Hle [v Hv]. apply Z.ltb_ge in Hle. rewrite Hle.
    unfold attr_name. rewrite Hv.
    by destruct (load_binary _ _ _ _ _) as [[[? ?] ?] ?].
Qed.

(** ** Refining the options *)

(** C10. [update_options] returns the options unchanged for every
    function source and for every text source whose extension is not
    [ttgir]; a call that changes the options comes from a [ttgir] text
    source, and such a call changes the [num_warps] field only. *)
Theorem update_options_frame :
  (forall a options, update_options (SrcAST a) options = inr options)
  /\ (forall i options,
        ir_ext i <> "ttgir" -> update_options (SrcIR i) options = inr options)
  /\ (forall s options options',
        update_options s options = inr options' -> options' <> options ->
        exists i, s = SrcIR i /\ ir_ext i = "ttgir")
  /\ (forall s options options',
        update_options s options = inr options' ->
        forall field, field <> "num_warps" -> options' !! field = options !! field).
Proof.
  assert (Hother : forall i options, ir_ext i <> "ttgir" ->
                     update_options (SrcIR i) options = inr options).
  { intros i options Hext. simpl. unfold IRSource_update_options.
    apply String.eqb_neq in Hext. by rewrite Hext. }
  repeat split.
  - exact Hother.
  - intros [a|i] options options' Hup Hne.
    + simpl in Hup. unfold ASTSource_update_options in Hup. congruence.
    + exists i. split; [done|].
      destruct (String.eqb_spec (ir_ext i) "ttgir") as [|Hext]; [done|].
      rewrite (Hother _ _ Hext) in Hup. congruence.
  - intros [a|i] options options' Hup field Hf.
    + simpl in Hup. unfold ASTSource_update_options in Hup. congruence.
    + simpl in Hup. unfold IRSource_update_options in Hup.
      destruct (String.eqb _ _).
      * destruct (_get_num_warps_from_ir_str _); [discriminate|].
        injection Hup as <-. by rewrite lookup_insert_ne.
      * congruence.
Qed.

(** ** The order of [sorted] on environment items *)

Lemma ascii_compare_lt x y :
  Ascii.compare x y = Lt <-> (N_of_ascii x < N_of_ascii y)%N.
Proof. unfold Ascii.compare. apply N.compare_lt_iff. Qed.

Lemma ascii_compare_gt x y :
  Ascii.compare x y = Gt <-> (N_of_ascii y < N_of_ascii x)%N.
Proof. unfold Ascii.compare. apply N.compare_gt_iff. Qed.

Lemma ascii_compare_eq x y : Ascii.compare x y = Eq <-> x = y.
Proof.
  split; [apply Ascii.compare_eq_iff|].
  intros ->. unfold Ascii.compare. apply N.compare_refl.
Qed.

Lemma string_compare_refl s : String.compare s s = Eq.
Proof.
  induction s as [|c s IH]; [reflexivity|]. simpl.
  by rewrite (proj2 (ascii_compare_eq c c) eq_refl).
Qed.

Lemma string_compare_eq s t : String.compare s t = Eq <-> s = t.
Proof.
  split; [apply String.compare_eq_iff|]. intros ->. apply string_compare_refl.
Qed.

Lemma string_compare_gt_lt s t : String.compare s t = Gt <-> String.compare t s = Lt.
Proof.
  rewrite (String.compare_antisym t s).
  destruct (String.compare s t); simpl; split; congruence.
Qed.

Lemma string_lt_trans : forall s t u,
  String.compare s t = Lt -> String.compare t u = Lt -> String.compare s u = Lt.
Proof.
  induction s as [|a s IH]; intros [|b t] [|c u]; simpl; try congruence.
  destruct (Ascii.compare a b) eqn:Eab; try discriminate;
    destruct (Ascii.compare b c) eqn:Ebc; try discriminate; intros Hst Htu.
  - apply ascii_compare_eq in Eab. apply ascii_compare_eq in Ebc. subst.
    rewrite (proj2 (ascii_compare_eq c c) eq_refl). eauto.
  - apply ascii_compare_eq in Eab. subst. by rewrite Ebc.
  - apply ascii_compare_eq in Ebc. subst. by rewrite Eab.
  - assert (Hac : Ascii.compare a c = Lt).
    { apply ascii_compare_lt. apply ascii_compare_lt in Eab.
      apply ascii_compare_lt in Ebc. by etrans. }
    by rewrite Hac.
Qed.

Lemma string_leb_trans s t u :
  String.leb s t = true -> String.leb t u = true -> String.leb s u = true.
Proof.
  unfold String.leb.
  destruct (String.compare s t) eqn:Est; try discriminate;
    destruct (String.compare t u) eqn:Etu; try discriminate; intros _ _.
  - apply string_compare_eq in Est. apply string_compare_eq in Etu. subst.
    by rewrite string_compare_refl.
  - apply string_compare_eq in Est. subst. by rewrite Etu.
  - apply string_compare_eq in Etu. subst. by rewrite Est.
  - by rewrite (string_lt_trans _ _ _ Est Etu).
Qed.

#[global] Instance item_le_total : Total item_le.
Proof.
  intros [k1 v1] [k2 v2]. unfold item_le. simpl.
  destruct (String.compare k1 k2) eqn:E.
  - apply string_compare_eq in E. subst. rewrite string_compare_refl.
    apply String.leb_total.
  - by left.
  - right. apply string_compare_gt_lt in E. by rewrite E.
Qed.

#[global] Instance item_le_antisymm : AntiSymm (=) item_le.
Proof.
  intros [k1 v1] [k2 v2]. unfold item_le. simpl.
  destruct (String.compare k1 k2) eqn:E.
  - apply string_compare_eq in E. subst. rewrite string_compare_refl.
    intros H1 H2. f_equal. by apply String.leb_antisym.
  - intros _. rewrite (String.compare_antisym k2 k1), E. simpl. tauto.
  - tauto.
Qed.

#[global] Instance item_le_trans : Transitive item_le.
Proof.
  intros [k1 v1] [k2 v2] [k3 v3]. unfold item_le. simpl.
  destruct (String.compare k1 k2) eqn:E12; [| |tauto];
    destruct (String.compare k2 k3) eqn:E23; try tauto.
  - apply string_compare_eq in E12. apply string_compare_eq in E23. subst.
    rewrite string_compare_refl. apply string_leb_trans.
  - apply string_compare_eq in E12. subst. by rewrite E23.
  - apply string_compare_eq in E23. subst. by rewrite E12.
  - by rewrite (string_lt_trans _ _ _ E12 E23).
Qed.

Lemma sorted_permutation (env1 env2 : odict string) :
  env1 ≡ₚ env2 -> sorted env1 = sorted env2.
Proof.
  intros Hp. unfold sorted.
  apply (Sorted_unique item_le); try apply Sorted_merge_sort; try apply _.
  by rewrite !merge_sort_Permutation.
Qed.

Lemma sorted_is_sorted (env : odict string) :
  StronglySorted item_le (sorted env) /\ sorted env ≡ₚ env.
Proof.
  split; [apply StronglySorted_merge_sort; apply _ | apply merge_sort_Permutation].
Qed.

(** ** The cache key *)

(** Within one interpreter the environment enters the key through
    [sorted]: for equal hashes two environments holding the same
    key/value pairs, enumerated in any order, give the same key
    string. *)
Lemma cache_key_env_order `{Runtime} (seed : Z) (src_h backend_h options_h : string)
    (env1 env2 : odict string) :
  env1 ≡ₚ env2 ->
  cache_key seed src_h backend_h options_h env1
  = cache_key seed src_h backend_h options_h env2.
Proof. intros Hp. unfold cache_key. by rewrite (sorted_permutation _ _ Hp). Qed.

Lemma append_same_prefix (a x y : string) : a +:+ x = a +:+ y -> x = y.
Proof. induction a as [|c a IH]; [done|]. intros [= Heq]. by apply IH. Qed.

(** Two interpreters compose the same key for one request exactly when
    they print the frozenset of the environment alike. *)
Lemma cache_key_seeds `{Runtime} (seed1 seed2 : Z) (src_h backend_h options_h : string)
    (env : odict string) :
  cache_key seed1 src_h backend_h options_h env
  = cache_key seed2 src_h backend_h options_h env
  <-> str_frozenset seed1 (sorted env) = str_frozenset seed2 (sorted env).
Proof.
  unfold cache_key. split; [|by intros ->].
  intros Heq.
  apply (append_same_prefix src_h), (append_same_prefix "-"),
        (append_same_prefix backend_h), (append_same_prefix "-"),
        (append_same_prefix options_h), (append_same_prefix "-") in Heq.
  exact Heq.
Qed.

Lemma head_new_events_extends {A} (m : M A) w e :
  extends m -> head (new_events w (m (with_trace w [e])).1) = Some e.
Proof.
  intros Hm. destruct (Hm (with_trace w [e])) as [[tr Htr] _].
  erewrite new_events_app; [|rewrite Htr; simpl; by rewrite <- app_assoc].
  reflexivity.
Qed.

(** The first call of [compile] is the probe under the hash of that
    key. *)
Lemma compile_first_event `{Runtime} backend src_arg device_type signature
    config constants extern_libs kwargs (w : World) :
  let src := make_source src_arg signature constants config in
  head (new_events w (compile backend src_arg device_type signature config
                              constants extern_libs kwargs w).1)
  = match update_options src (parse_options backend kwargs), src_hash src with
    | inr options, inr src_h =>
      Some (EGetGroup
              (md5_hexdigest (cache_key (w_seed w) src_h (backend_hash backend)
                                        (options_hash backend options) (w_env w)))
              (src_name src +:+ ".json"))
    | _, _ => None
    end.
Proof.
  intros src. unfold compile. fold src.
  unfold bind at 1, lift at 1.
  destruct (update_options src (parse_options backend kwargs)) as [e|options].
  { unfold new_events. simpl. by rewrite drop_all. }
  unfold bind at 1, lift at 1.
  destruct (src_hash src) as [e|src_h].
  { unfold new_events. simpl. by rewrite drop_all. }
  unfold bind at 1, get_env_vars at 1. cbn [fst snd].
  unfold bind at 1, get_hash_seed at 1. cbn [fst snd].
  set (hash := md5_hexdigest _). set (fname := src_name src +:+ ".json").
  unfold bind at 1. rewrite get_group_spec. cbv iota beta.
  destruct (default ∅ (w_groups w !! (hash, fname)) !! fname).
  - apply head_new_events_extends. extends_steps.
  - apply head_new_events_extends. extends_steps.
    match goal with a : _ * _ * _ |- _ => destruct a as [[? ?] ?] end.
    extends_steps. rewrite lookup_insert_eq. auto with extends.
Qed.

(** Two requests of one interpreter that differ only in the order in
    which the environment is enumerated open the cache with the same
    first call. *)
Lemma compile_probe_env_order `{Runtime} backend src_arg device_type signature
    config constants extern_libs kwargs (w1 w2 : World) :
  w_seed w1 = w_seed w2 ->
  w_env w1 ≡ₚ w_env w2 ->
  let run := compile backend src_arg device_type signature config constants
                     extern_libs kwargs in
  head (new_events w1 (run w1).1) = head (new_events w2 (run w2).1).
Proof.
  intros Hs Hp run. subst run. rewrite !compile_first_event. cbn zeta.
  destruct (update_options _ _); [done|]. destruct (src_hash _); [done|].
  unfold cache_key. by rewrite Hs, (sorted_permutation _ _ Hp).
Qed.

(** * Runs on concrete requests *)

(** C1. Not so on the code: the key ends in the text of
    [frozenset(sorted(env.items()))], and a frozenset prints its items in
    the order of the interpreter's hash table, whatever order they were
    sorted into.  For one request (the same source, backend and options
    hashes and the two-variable environment [Demo.env]) an interpreter
    with hash seed 0 and one with hash seed 1 compose different key
    strings. *)
Theorem cache_key_hash_seed (src_h backend_h options_h : string) :
  cache_key 0 src_h backend_h options_h Demo.env
  <> cache_key 1 src_h backend_h options_h Demo.env.
Proof. rewrite cache_key_seeds. vm_compute. discriminate. Qed.

(** The request that one interpreter compiled and cached is compiled
    again, stage by stage, by an interpreter with another hash seed. *)
Lemma compile_other_interpreter_misses :
  let w := with_seed Demo.warm_world 0 in
  omap stage_ext (new_events w (Demo.compile_text Demo.lower_ptx Demo.request w).1)
  = ["ttgir"; "llir"; "ptx"; "cubin"].
Proof. vm_compute. reflexivity. Qed.

Lemma init_handles_resource_check_witness :
  (_init_handles (Demo.gpu 49152) [] (Demo.handle 70000)).2
  = inl (OutOfResources 70000 49152 "shared memory")
  /\ (_init_handles (Demo.gpu 49152) [] (Demo.handle 40000)).2 = inr tt.
Proof.
  split.
  - apply (init_handles_resource_check (Demo.gpu 49152) [] (Demo.handle 70000) 70000);
      [reflexivity | vm_compute; reflexivity | reflexivity | reflexivity].
  - apply (init_handles_resource_check (Demo.gpu 49152) [] (Demo.handle 40000) 40000);
      [reflexivity | vm_compute; reflexivity | reflexivity | reflexivity
      | eexists; vm_compute; reflexivity].
Defined.

Lemma init_handles_idempotent_witness :
  let out := _init_handles (Demo.gpu 49152) [] (Demo.handle 40000) in
  _init_handles (Demo.gpu 0) out.1.1 out.1.2 = (out.1.1, out.1.2, inr tt).
Proof.
  intros out.
  apply (proj1 (init_handles_idempotent (Demo.gpu 49152) [] (Demo.handle 40000)
                  out.1.1 out.1.2 ltac:(vm_compute; reflexivity))).
Defined.

Lemma init_handles_retries_after_failure_witness :
  (_init_handles (Demo.gpu 49152) [QueryDevice 0] (Demo.handle 70000)).1.1
  = [QueryDevice 0; QueryDevice 0]
  /\ (_init_handles (Demo.gpu 98304) [QueryDevice 0] (Demo.handle 70000)).2 = inr tt.
Proof.
  assert (Hfail : _init_handles (Demo.gpu 49152) [] (Demo.handle 70000)
                  = ([QueryDevice 0], Demo.handle 70000,
                     inl (OutOfResources 70000 49152 "shared memory")))
    by (vm_compute; reflexivity).
  destruct (init_handles_retries_after_failure _ _ _ _ _ _ _ _ Hfail)
    as (_ & _ & _ & Hlater).
  split.
  - destruct (Hlater (Demo.gpu 49152) [QueryDevice 0]) as (_ & Hagain & _).
    rewrite Hagain; [reflexivity | reflexivity].
  - destruct (Hlater (Demo.gpu 98304) [QueryDevice 0]) as (_ & _ & Hbind).
    apply Hbind; [discriminate | eexists; vm_compute; reflexivity].
Defined.


Lemma update_options_frame_witness :
  update_options (SrcIR (Demo.ttir_text Demo.warps8)) ∅ = inr ∅.
Proof.
  apply (proj1 (proj2 update_options_frame)). discriminate.
Defined.


Lemma compile_commit_point_witness :
  let out := Demo.compile_text Demo.failing Demo.request Demo.empty_world in
  out.2 = inl (ExternalError "ptxas failed")
  /\ Forall (fun e => is_group_write e = false) (new_events Demo.empty_world out.1)
  /\ w_groups out.1 = ∅.
Proof.
  intros out.
  destruct (compile_commit_point (Demo.cuda Demo.failing)
              (ArgPath Demo.request) Demo.device_type None Demo.no_config None
              VNone Demo.no_kwargs Demo.empty_world Demo.refined
              (md5_hexdigest (ir_src Demo.request))
              ltac:(vm_compute; reflexivity) ltac:(vm_compute; reflexivity)
              Demo.seed 1%nat "parsed(kernel.ttgir)"
              ltac:(vm_compute; reflexivity) ltac:(vm_compute; reflexivity)
              ltac:(vm_compute; reflexivity) ltac:(vm_compute; reflexivity))
    as (_ & _ & Hfail).
  destruct (Hfail (ExternalError "ptxas failed") ltac:(vm_compute; reflexivity))
    as (Hout & Hquiet & Hgroups & _).
  split; [exact Hout|]. split; [exact Hquiet | exact Hgroups].
Defined.

Lemma compile_stage_order_witness :
  let out := Demo.compile_text Demo.lower_ptx Demo.request Demo.empty_world in
  omap stage_ext (new_events Demo.empty_world out.1) = ["ttgir"; "llir"; "ptx"; "cubin"].
Proof.
  intros out.
  destruct (compile_stage_order (Demo.cuda Demo.lower_ptx)
              (ArgPath Demo.request) Demo.device_type None Demo.no_config None
              VNone Demo.no_kwargs Demo.empty_world Demo.refined
              (md5_hexdigest (ir_src Demo.request))
              ltac:(vm_compute; reflexivity) ltac:(vm_compute; reflexivity)
              Demo.seed 1%nat "parsed(kernel.ttgir)"
              ltac:(vm_compute; reflexivity) ltac:(vm_compute; reflexivity)
              ltac:(vm_compute; reflexivity) ltac:(vm_compute; reflexivity))
    as (_ & _ & _ & _ & Hall & _).
  exact (Hall ltac:(vm_compute; reflexivity)).
Defined.



(** * Properties of the further parts *)

(** ** Texts *)

Lemma append_cons c (a b : string) : String c a +:+ b = String c (a +:+ b).
Proof. reflexivity. Qed.

Lemma append_nil (b : string) : EmptyString +:+ b = b.
Proof. reflexivity. Qed.

Lemma drop_prefix_app x s : drop_prefix x (x +:+ s) = Some s.
Proof.
  induction x as [|a x IH]; [done|].
  rewrite append_cons. cbn [drop_prefix]. by rewrite Ascii.eqb_refl.
Qed.

Lemma drop_prefix_Some x : forall s s', drop_prefix x s = Some s' -> s = x +:+ s'.
Proof.
  induction x as [|a x IH]; intros s s'; cbn [drop_prefix]; [by intros [= ->]|].
  destruct s as [|b s]; [discriminate|].
  destruct (Ascii.eqb_spec a b) as [->|]; [|discriminate].
  intros Hd. by rewrite (IH _ _ Hd).
Qed.

Lemma take_drop_while f s : take_while f s +:+ drop_while f s = s.
Proof.
  induction s as [|c s IH]; [done|]. cbn [take_while drop_while].
  destruct (f c); [|done]. by rewrite append_cons, IH.
Qed.

Lemma take_while_all f s : all_chars f (take_while f s) = true.
Proof.
  induction s as [|c s IH]; simpl; [done|].
  destruct (f c) eqn:E; simpl; [by rewrite E | done].
Qed.

Lemma drop_while_first f s c :
  first_char (drop_while f s) = Some c -> f c = false.
Proof.
  induction s as [|d s IH]; simpl; [discriminate|].
  destruct (f d) eqn:E; [exact IH|]. simpl. by intros [= <-].
Qed.

Lemma take_while_app f g rest :
  all_chars f g = true ->
  (forall c, first_char rest = Some c -> f c = false) ->
  take_while f (g +:+ rest) = g /\ drop_while f (g +:+ rest) = rest.
Proof.
  intros Hg Hrest. induction g as [|c g IH].
  - rewrite append_nil. destruct rest as [|c rest]; [done|].
    cbn [take_while drop_while]. by rewrite (Hrest c eq_refl).
  - rewrite append_cons. cbn [take_while drop_while all_chars] in *.
    apply andb_prop in Hg as [Hc Hg]. rewrite Hc.
    destruct (IH Hg) as [-> ->]. done.
Qed.

Lemma length_app_string (a b : string) :
  String.length (a +:+ b) = (String.length a + String.length b)%nat.
Proof.
  induction a as [|c a IH]; [done|]. rewrite append_cons. cbn [String.length].
  by rewrite IH.
Qed.

Lemma app_string_assoc (a b c : string) : (a +:+ b) +:+ c = a +:+ (b +:+ c).
Proof.
  induction a as [|x a IH]; [done|]. by rewrite !append_cons, IH.
Qed.

(** ** The matcher on literals and on a final run *)

Lemma match_here_lit x p : forall s,
  Re.match_here (Re.lit x ++ p) s
  = match drop_prefix x s with
    | Some s' => Re.match_here p s'
    | None => None
    end.
Proof.
  induction x as [|a x IH]; intros s; [reflexivity|].
  change (Re.lit (String a x) ++ p)
    with (Re.Atom (Re.is_char a) Re.One false :: (Re.lit x ++ p)).
  cbn [Re.match_here Re.a_quant Re.a_class]. destruct s as [|b s]; [done|].
  cbn [drop_prefix]. unfold Re.is_char.
  destruct (Ascii.eqb a b); [|done].
  rewrite IH. destruct (drop_prefix x s) as [s'|]; [|done].
  destruct (Re.match_here p s') as [[g r]|]; done.
Qed.

Lemma match_here_run f s :
  Re.match_here [Re.Atom f Re.Plus true] s
  = match take_while f s with
    | EmptyString => None
    | g => Some (g, drop_while f s)
    end.
Proof.
  cbn [Re.match_here Re.a_quant Re.a_class].
  induction s as [|c s IH]; [reflexivity|].
  cbn [take_while drop_while]. destruct (f c) eqn:Ec; [|reflexivity].
  rewrite IH. destruct (take_while f s) as [|d g] eqn:Et.
  - cbn. destruct s as [|d s]; [reflexivity|].
    cbn in Et |- *. destruct (f d); [discriminate|reflexivity].
  - reflexivity.
Qed.

(** ** [convert_type_repr] *)

Lemma ptr_match s :
  Re.match_here ptr_pattern s
  = match drop_prefix "!tt.ptr<" s with
    | Some s' =>
      match take_while not_comma s' with
      | EmptyString => None
      | g => Some (g, drop_while not_comma s')
      end
    | None => None
    end.
Proof.
  unfold ptr_pattern. rewrite match_here_lit.
  destruct (drop_prefix _ s) as [s'|]; [|done]. apply match_here_run.
Qed.

Lemma ptr_match_Some s g rest :
  Re.match_here ptr_pattern s = Some (g, rest) ->
  s = "!tt.ptr<" +:+ g +:+ rest /\ g <> EmptyString
  /\ all_chars not_comma g = true
  /\ (forall c, first_char rest = Some c -> c = ","%char).
Proof.
  rewrite ptr_match. destruct (drop_prefix _ s) as [s'|] eqn:Ed; [|discriminate].
  apply drop_prefix_Some in Ed.
  pose proof (take_drop_while not_comma s') as Htd.
  pose proof (take_while_all not_comma s') as Hall.
  destruct (take_while not_comma s') as [|c g'] eqn:Et; [discriminate|].
  intros [= <- <-]. split; [by rewrite Htd|]. split; [done|]. split; [done|].
  intros c' Hc'. apply drop_while_first in Hc'. unfold not_comma in Hc'.
  apply negb_false_iff in Hc'. by apply Ascii.eqb_eq in Hc'.
Qed.

Lemma re_search_Some p : forall s g,
  re_search p s = Some g ->
  exists pre t rest, s = pre +:+ t /\ Re.match_here p t = Some (g, rest).
Proof.
  induction s as [|c s IH]; intros g; cbn [re_search].
  - destruct (Re.match_here p "") as [[g' r]|] eqn:Em; [|discriminate].
    intros [= <-]. by exists "", "", r.
  - destruct (Re.match_here p (String c s)) as [[g' r]|] eqn:Em.
    + intros [= <-]. by exists "", (String c s), r.
    + intros Hs. destruct (IH _ Hs) as (pre & t & rest & -> & Hm).
      by exists (String c pre), t, rest.
Qed.

Lemma ptr_search_shorter x g :
  re_search ptr_pattern x = Some g -> (String.length g < String.length x)%nat.
Proof.
  intros Hs. destruct (re_search_Some _ _ _ Hs) as (pre & t & rest & -> & Hm).
  apply ptr_match_Some in Hm as (-> & _).
  rewrite !length_app_string. simpl. lia.
Qed.

Lemma convert_type_repr_from_enough : forall n m x,
  (String.length x <= n)%nat -> (String.length x <= m)%nat ->
  convert_type_repr_from n x = convert_type_repr_from m x.
Proof.
  assert (Hnil : forall k, convert_type_repr_from k "" = "").
  { intros [|k]; [done|]. cbn [convert_type_repr_from re_search].
    by rewrite ptr_match. }
  induction n as [|n IH]; intros m x Hn Hm.
  - destruct x; [|simpl in Hn; lia]. by rewrite !Hnil.
  - destruct m as [|m]; [destruct x; [by rewrite !Hnil | simpl in Hm; lia]|].
    cbn [convert_type_repr_from].
    destruct (re_search ptr_pattern x) as [g|] eqn:Es; [|done].
    apply ptr_search_shorter in Es. f_equal. apply IH; lia.
Qed.

(** The equation of the source: a pointer type becomes a star followed by
    the conversion of its pointee, any other text is returned as it is. *)
Lemma convert_type_repr_eq x :
  convert_type_repr x
  = match re_search ptr_pattern x with
    | Some g => String "*" (convert_type_repr g)
    | None => x
    end.
Proof.
  unfold convert_type_repr at 1. destruct x as [|c x].
  - cbn [String.length convert_type_repr_from re_search]. by rewrite ptr_match.
  - cbn [String.length convert_type_repr_from].
    destruct (re_search ptr_pattern (String c x)) as [g|] eqn:Es; [|done].
    apply ptr_search_shorter in Es. simpl in Es. f_equal.
    unfold convert_type_repr. apply convert_type_repr_from_enough; lia.
Qed.

Lemma ptr_search_stars k y :
  re_search ptr_pattern y = None -> re_search ptr_pattern (stars k y) = None.
Proof.
  intros Hy. induction k as [|k IH]; [done|].
  cbn [stars re_search]. by rewrite ptr_match.
Qed.

(** X1. [convert_type_repr] returns some stars followed by a part of its
    argument in which the pointer pattern no longer matches; converting
    the result again changes nothing. *)
Theorem convert_type_repr_idempotent x :
  (exists k y a b,
      convert_type_repr x = stars k y /\ x = a +:+ y +:+ b
      /\ re_search ptr_pattern y = None)
  /\ convert_type_repr (convert_type_repr x) = convert_type_repr x.
Proof.
  assert (Hshape : forall n x, (String.length x <= n)%nat ->
            exists k y a b, convert_type_repr x = stars k y /\ x = a +:+ y +:+ b
                            /\ re_search ptr_pattern y = None).
  { induction n as [|n IH]; intros z Hz; rewrite convert_type_repr_eq.
    - destruct z; [|simpl in Hz; lia]. exists 0%nat, "", "", "".
      repeat split.
    - destruct (re_search ptr_pattern z) as [g|] eqn:Es.
      + pose proof (ptr_search_shorter _ _ Es) as Hlt.
        destruct (IH g ltac:(lia)) as (k & y & a & b & -> & Hg & Hy).
        destruct (re_search_Some _ _ _ Es) as (pre & t & rest & -> & Hm).
        apply ptr_match_Some in Hm as (-> & _).
        exists (S k), y, (pre +:+ "!tt.ptr<" +:+ a), (b +:+ rest).
        split; [done|]. split; [|done]. rewrite Hg.
        by rewrite !app_string_assoc.
      + exists 0%nat, z, "", "". split; [done|]. split; [|done].
        rewrite append_nil. clear. induction z as [|c z IHz]; [done|].
        by rewrite append_cons, <- IHz. }
  destruct (Hshape _ x (le_n _)) as (k & y & a & b & Hc & Hx & Hy).
  split; [by exists k, y, a, b|].
  rewrite Hc. rewrite convert_type_repr_eq. by rewrite (ptr_search_stars k y Hy).
Qed.

Lemma ptr_search_skip pre s :
  has_char "!" pre = false ->
  re_search ptr_pattern (pre +:+ s) = re_search ptr_pattern s.
Proof.
  induction pre as [|c pre IH]; [done|]. cbn [has_char].
  intros [Hc Hpre]%orb_false_elim. rewrite append_cons. cbn [re_search].
  rewrite ptr_match. cbn [drop_prefix]. rewrite Hc. by apply IH.
Qed.

(** X2. In a text that holds a pointer type, with no exclamation mark
    before it, [convert_type_repr] keeps the pointee only: what stands
    before the pointer type and what follows the first comma after it
    (the address space) is dropped, and the pointee is converted in
    turn. *)
Theorem convert_type_repr_pointer pre body tail :
  has_char "!" pre = false ->
  body <> EmptyString ->
  all_chars not_comma body = true ->
  (forall c, first_char tail = Some c -> c = ","%char) ->
  convert_type_repr (pre +:+ "!tt.ptr<" +:+ body +:+ tail)
  = String "*" (convert_type_repr body).
Proof.
  intros Hpre Hne Hbody Htail. rewrite convert_type_repr_eq.
  rewrite (ptr_search_skip _ _ Hpre).
  assert (Hm : Re.match_here ptr_pattern ("!tt.ptr<" +:+ body +:+ tail)
               = Some (body, tail)).
  { rewrite ptr_match, drop_prefix_app.
    destruct (take_while_app not_comma body tail Hbody) as [-> ->].
    - intros c Hc. rewrite (Htail c Hc). reflexivity.
    - by destruct body. }
  assert (Hs : re_search ptr_pattern ("!tt.ptr<" +:+ body +:+ tail) = Some body).
  { change ("!tt.ptr<" +:+ body +:+ tail)
      with (String "!" ("tt.ptr<" +:+ body +:+ tail)) in Hm |- *.
    cbn [re_search]. by rewrite Hm. }
  by rewrite Hs.
Qed.

(** ** Signatures given as text *)

Lemma split_comma_cons s : exists h t, split_comma s = h :: t.
Proof.
  destruct s as [|c s]; cbn [split_comma]; [eauto|].
  destruct (Ascii.eqb c ","); [eauto|]. destruct (split_comma s); eauto.
Qed.

Lemma split_comma_length s :
  length (split_comma s) = S (count_char "," s).
Proof.
  induction s as [|c s IH]; [done|]. cbn [split_comma count_char].
  rewrite (Ascii.eqb_sym "," c).
  destruct (Ascii.eqb c ","); [simpl; by rewrite IH|].
  destruct (split_comma s) as [|h t]; simpl in *; lia.
Qed.

Lemma split_comma_clean a :
  all_chars not_comma a = true -> split_comma a = [a].
Proof.
  induction a as [|c a IH]; [done|]. cbn [all_chars split_comma].
  intros [Hc Ha]%andb_prop. unfold not_comma in Hc.
  apply negb_true_iff in Hc. rewrite Hc, (IH Ha). done.
Qed.

Lemma split_comma_app a s :
  all_chars not_comma a = true ->
  split_comma (a +:+ "," +:+ s) = a :: split_comma s.
Proof.
  induction a as [|c a IH]; [done|]. cbn [all_chars].
  intros [Hc Ha]%andb_prop. unfold not_comma in Hc.
  apply negb_true_iff in Hc. rewrite append_cons. cbn [split_comma].
  by rewrite Hc, (IH Ha).
Qed.

Lemma join_comma_cons x l :
  l <> [] -> join_comma (x :: l) = x +:+ "," +:+ join_comma l.
Proof. by destruct l. Qed.

Lemma join_split_comma s : join_comma (split_comma s) = s.
Proof.
  induction s as [|c s IH]; [done|]. cbn [split_comma].
  destruct (split_comma_cons s) as (h & t & E). rewrite E in IH |- *.
  destruct (Ascii.eqb_spec c ",") as [->|Hc].
  - rewrite join_comma_cons by done. by rewrite IH.
  - destruct t as [|h' t].
    + cbn [join_comma] in *. by subst.
    + rewrite join_comma_cons by done. rewrite join_comma_cons in IH by done.
      by rewrite append_cons, IH.
Qed.

Lemma split_join_comma l :
  l <> [] -> Forall (fun a => all_chars not_comma a = true) l ->
  split_comma (join_comma l) = l.
Proof.
  induction l as [|a l IH]; [done|]. intros _ Hall.
  apply Forall_cons in Hall as [Ha Hl]. destruct l as [|b l].
  - cbn [join_comma]. by apply split_comma_clean.
  - rewrite join_comma_cons by done. rewrite (split_comma_app _ _ Ha). f_equal.
    by apply IH.
Qed.

Lemma lstrip_spaces l s :
  all_chars Re.is_space l = true -> lstrip (l +:+ s) = lstrip s.
Proof.
  induction l as [|c l IH]; [done|]. cbn [all_chars].
  intros [Hc Hl]%andb_prop. rewrite append_cons. cbn [lstrip].
  by rewrite Hc, (IH Hl).
Qed.

Lemma lstrip_clean t :
  (forall c, first_char t = Some c -> Re.is_space c = false) -> lstrip t = t.
Proof.
  destruct t as [|c t]; [done|]. intros Hc. cbn [lstrip].
  by rewrite (Hc c eq_refl).
Qed.

Lemma rstrip_spaces r : all_chars Re.is_space r = true -> rstrip r = EmptyString.
Proof.
  induction r as [|c r IH]; [done|]. cbn [all_chars].
  intros [Hc Hr]%andb_prop. cbn [rstrip]. by rewrite (IH Hr), Hc.
Qed.

Lemma rstrip_clean t r :
  (forall c, last_char t = Some c -> Re.is_space c = false) ->
  all_chars Re.is_space r = true ->
  rstrip (t +:+ r) = t.
Proof.
  intros Hlast Hr. induction t as [|c t IH].
  - rewrite append_nil. by apply rstrip_spaces.
  - rewrite append_cons. cbn [rstrip]. destruct t as [|d t].
    + rewrite append_nil, (rstrip_spaces _ Hr). by rewrite (Hlast c eq_refl).
    + rewrite IH; [done|]. intros c' Hc'. by apply Hlast.
Qed.

Lemma strip_padded p : padding_ok p -> strip (padded p) = p.1.2.
Proof.
  destruct p as [[l t] r]. intros (Hl & (Hcomma & Hfirst & Hlast) & Hr).
  unfold strip, padded. cbn [fst snd] in *.
  rewrite (lstrip_spaces _ _ Hl). destruct t as [|c t].
  - rewrite append_nil. clear Hfirst Hlast.
    assert (Hr' : lstrip r = EmptyString).
    { induction r as [|c r IH]; [done|]. cbn [all_chars] in Hr.
      apply andb_prop in Hr as [Hc Hr]. cbn [lstrip]. rewrite Hc. by apply IH. }
    by rewrite Hr'.
  - rewrite append_cons. cbn [lstrip]. rewrite (Hfirst c eq_refl).
    rewrite <- append_cons. by apply rstrip_clean.
Qed.

Lemma padded_not_comma p :
  padding_ok p -> all_chars not_comma (padded p) = true.
Proof.
  assert (Happ : forall a b, all_chars not_comma a = true ->
                   all_chars not_comma b = true ->
                   all_chars not_comma (a +:+ b) = true).
  { induction a as [|c a IH]; intros b Ha Hb; [done|].
    rewrite append_cons. cbn [all_chars] in *.
    apply andb_prop in Ha as [-> Ha]. by apply IH. }
  assert (Hsp : forall a, all_chars Re.is_space a = true ->
                  all_chars not_comma a = true).
  { induction a as [|c a IH]; [done|]. cbn [all_chars].
    intros [Hc Ha]%andb_prop. rewrite (IH Ha), andb_true_r.
    unfold not_comma. destruct (Ascii.eqb_spec c ",") as [->|]; [|done].
    discriminate Hc. }
  destruct p as [[l t] r]. intros (Hl & (Hcomma & _) & Hr). unfold padded.
  cbn [fst snd] in *. auto.
Qed.

Lemma imap_pair_fst {A} (f : nat -> nat) (l : list A) :
  fst <$> imap (fun i x => (f i, x)) l = f <$> seq 0 (length l).
Proof.
  revert f. induction l as [|x l IH]; intros f; [done|].
  cbn [imap fmap list_fmap length seq]. f_equal.
  rewrite <- seq_shift, <- list_fmap_compose. apply (IH (f ∘ S)).
Qed.

Lemma imap_pair_snd {A} (f : nat -> nat) (l : list A) :
  snd <$> imap (fun i x => (f i, x)) l = l.
Proof.
  revert f. induction l as [|x l IH]; intros f; [done|].
  cbn [imap fmap list_fmap]. f_equal. apply (IH (f ∘ S)).
Qed.

Lemma enumerate_keys {A} (l : list A) : fst <$> enumerate l = seq 0 (length l).
Proof.
  unfold enumerate. rewrite (imap_pair_fst id). apply list_fmap_id.
Qed.

Lemma enumerate_values {A} (l : list A) : snd <$> enumerate l = l.
Proof. unfold enumerate. apply (imap_pair_snd id). Qed.

Lemma strip_ends s :
  (forall c, first_char (strip s) = Some c -> Re.is_space c = false)
  /\ (forall c, last_char (strip s) = Some c -> Re.is_space c = false).
Proof.
  unfold strip.
  assert (Hl : forall c, first_char (lstrip s) = Some c -> Re.is_space c = false).
  { induction s as [|d s IH]; [done|]. cbn [lstrip].
    destruct (Re.is_space d) eqn:Ed; [exact IH|]. by intros c [= <-]. }
  assert (Hr : forall t c, last_char (rstrip t) = Some c -> Re.is_space c = false).
  { induction t as [|d t IH]; [done|]. cbn [rstrip].
    destruct (rstrip t) as [|e r] eqn:Er.
    - destruct (Re.is_space d) eqn:Ed; [done|]. by intros c [= <-].
    - intros c Hc. apply IH. exact Hc. }
  split; [|apply Hr].
  destruct (lstrip s) as [|d t] eqn:El; [done|].
  intros c. cbn [rstrip]. specialize (Hl d eq_refl).
  destruct (rstrip t); rewrite ?Hl; by intros [= <-].
Qed.

(** X3. A signature text has one argument more than it has commas, the
    arguments are numbered from 0 without gap, and no type keeps white
    space at either end; the empty text therefore declares one argument
    whose type is empty, not zero arguments. *)
Theorem signature_of_text_shape s :
  length (signature_of_text s) = S (count_char "," s)
  /\ fst <$> signature_of_text s = seq 0 (S (count_char "," s))
  /\ Forall (fun t => (forall c, first_char t = Some c -> Re.is_space c = false)
                      /\ (forall c, last_char t = Some c -> Re.is_space c = false))
            (snd <$> signature_of_text s)
  /\ signature_of_text "" = [(0%nat, EmptyString)].
Proof.
  unfold signature_of_text.
  assert (Hlen : length (enumerate (strip <$> split_comma s)) = S (count_char "," s)).
  { unfold enumerate. by rewrite length_imap, length_fmap, split_comma_length. }
  split; [exact Hlen|]. split; [|split; [|done]].
  - rewrite enumerate_keys. by rewrite length_fmap, split_comma_length.
  - rewrite enumerate_values. apply Forall_fmap, Forall_forall.
    intros t _. apply strip_ends.
Qed.

(** X4. Splitting at the commas and stripping undoes writing the types
    of a signature one after the other, separated by commas and padded
    with any white space, as long as there is at least one type and the
    types hold no comma and no white space at their ends. *)
Theorem signature_of_text_join ps :
  ps <> [] -> Forall padding_ok ps ->
  signature_of_text (join_comma (padded <$> ps))
  = enumerate ((fun p => p.1.2) <$> ps).
Proof.
  intros Hne Hok. unfold signature_of_text. f_equal.
  rewrite split_join_comma.
  - rewrite <- list_fmap_compose. apply Forall_fmap_ext.
    eapply Forall_impl; [exact Hok|]. intros p Hp. by apply strip_padded.
  - by destruct ps.
  - apply Forall_fmap. eapply Forall_impl; [exact Hok|].
    intros p Hp. by apply padded_not_comma.
Qed.

(** ** [InstanceDescriptor.hash] *)

Lemma sorted_ints_same a b : same_set a b -> sorted_ints a = sorted_ints b.
Proof.
  destruct a as [x|], b as [y|]; simpl; try done. intros Hp. f_equal.
  apply (Sorted_unique Z.le); try apply Sorted_merge_sort; try apply _.
  by rewrite !merge_sort_Permutation.
Qed.

(** X5. The hash of an instance descriptor does not depend on the order
    in which its four sets are enumerated, and it raises [TypeError]
    exactly when one of the sets is [None], as all four are in a
    descriptor built without arguments. *)
Theorem InstanceDescriptor_hash_sets `{Runtime} :
  (forall c1 c2, same_descriptor c1 c2 ->
                 InstanceDescriptor_hash c1 = InstanceDescriptor_hash c2)
  /\ (forall c, (exists e, InstanceDescriptor_hash c = inl e) <-> unset_field c)
  /\ (forall c e, InstanceDescriptor_hash c = inl e ->
                  e = TypeError "'NoneType' object is not iterable").
Proof.
  split; [|split].
  - intros c1 c2 (H16 & H1 & Hids & H8). unfold InstanceDescriptor_hash.
    by rewrite (sorted_ints_same _ _ H16), (sorted_ints_same _ _ H1),
               (sorted_ints_same _ _ Hids), (sorted_ints_same _ _ H8).
  - intros [d16 e1 ids d8]. unfold InstanceDescriptor_hash, unset_field. simpl.
    destruct d16, e1, ids, d8; simpl; split;
      try (intros [e He]; discriminate He);
      try (intros [?|[?|[?|?]]]; discriminate);
      try (intros _; eauto; fail); eauto.
  - intros [d16 e1 ids d8] e. unfold InstanceDescriptor_hash. simpl.
    destruct d16, e1, ids, d8; simpl; try discriminate; by intros [= <-].
Qed.

(** ** [CompiledKernel.__init__] as a function of the files *)

Lemma init_handle_of_files `{Runtime} so_path mp w :
  CompiledKernel_init so_path mp w
  = (with_trace w [EReadText mp], handle_of_files so_path mp (w_files w)).
Proof.
  unfold CompiledKernel_init, handle_of_files, bind, read_text, lift, log.
  simpl.
  destruct (w_files w !! p_dir mp ≫= _) as [text|]; simpl; [|done].
  destruct (json_loads text) as [e|md]; simpl; [done|].
  by destruct (glob_asm _ _ !! binary_ext).
Qed.

Lemma handle_of_files_launcher `{Runtime} so1 so2 mp files k :
  handle_of_files so1 mp files = inr k ->
  handle_of_files so2 mp files = inr (with_launcher k so2).
Proof.
  unfold handle_of_files.
  destruct (files !! p_dir mp ≫= _) as [text|]; [|discriminate].
  destruct (json_loads text) as [e|md]; [discriminate|]. cbn zeta.
  destruct (glob_asm _ _ !! binary_ext); [|discriminate].
  by intros [= <-].
Qed.

(** ** More on the paths of [compile] *)

Lemma list_index_None x l : x ∉ l -> list_index x l = inl (ValueError "is not in list").
Proof.
  induction l as [|y l IH]; [done|]. intros Hn. cbn [list_index].
  destruct (String.eqb_spec y x) as [->|Hne].
  - exfalso. apply Hn, elem_of_cons. by left.
  - rewrite IH; [done|]. intros Hin. apply Hn, elem_of_cons. by right.
Qed.

Lemma list_index_lt x l i : list_index x l = inr i -> (i < length l)%nat.
Proof.
  intros Hi. destruct (list_index_spec _ _ _ Hi) as [Hl _].
  by apply lookup_lt_Some in Hl.
Qed.

Section CompileMore.
Context `{Runtime}.
Variables (backend : Backend) (src_arg : SourceArg) (device_type : value)
  (signature : option (odict string)) (config : InstanceDescriptor)
  (constants : option (odict value)) (extern_libs : value)
  (kwargs : gmap string value).
Variables (w : World) (options : gmap string value) (src_h : string).

Local Abbreviation src := (make_source src_arg signature constants config).
Local Abbreviation run :=
  (compile backend src_arg device_type signature config constants extern_libs kwargs).
Local Abbreviation hash :=
  (md5_hexdigest (cache_key (w_seed w) src_h (backend_hash backend)
                            (options_hash backend options) (w_env w))).
Local Abbreviation fname := (src_name src +:+ ".json").
Local Abbreviation stages := (dict_of_assignments (add_stages backend extern_libs options)).

Hypothesis Hrefine : update_options src (parse_options backend kwargs) = inr options.
Hypothesis Hhash : src_hash src = inr src_h.

(** The miss path up to the first stage. *)
Lemma compile_miss_early :
  default ∅ (w_groups w !! (hash, fname)) !! fname = None ->
  run w =
    let w0 := with_trace w [EGetGroup hash fname] in
    match folded_args_metadata signature config
            (initial_metadata device_type options (w_env w)) with
    | inl e => (w0, inl e)
    | inr md0 =>
      match list_index (src_ext src) (dict_keys stages) with
      | inl e => (with_trace w [EGetGroup hash fname; EAddStages], inl e)
      | inr first =>
        match make_ir src options with
        | inl e => (with_trace w [EGetGroup hash fname; EAddStages; EMakeIR], inl e)
        | inr module0 => run w
        end
      end
    end.
Proof.
  intros Hmiss. cbn zeta.
  destruct (folded_args_metadata _ _ _) as [e|md0] eqn:Hmd.
  2: destruct (list_index _ _) as [e|first] eqn:Hidx.
  3: destruct (make_ir src options) as [e|module0] eqn:Hir; [|done].
  all: unfold compile; unfold bind at 1, lift at 1; rewrite Hrefine;
    unfold bind at 1, lift at 1; rewrite Hhash;
    unfold bind at 1, get_env_vars at 1;
    unfold bind at 1, get_hash_seed at 1;
    unfold bind at 1; rewrite get_group_spec; cbn [fst snd w_env with_trace];
    rewrite Hmiss;
    unfold bind at 1, get_env_vars at 1; cbn [fst snd w_env with_trace];
    unfold bind at 1, lift at 1; rewrite Hmd.
  - f_equal.
  - unfold bind at 1. rewrite log_spec.
    unfold bind at 1, lift at 1. rewrite Hidx. f_equal. same_world.
  - unfold bind at 1. rewrite log_spec.
    unfold bind at 1, lift at 1. rewrite Hidx.
    unfold bind at 1. rewrite log_spec.
    unfold bind at 1, lift at 1. rewrite Hir. f_equal. same_world.
Qed.

(** X6. When the backend's stage chain has no stage named after the
    source's format, a compile that misses the cache raises [ValueError]
    right after asking the backend for its stages: no initial IR is
    made, no stage is called and nothing is written. *)
Theorem compile_unknown_format :
  default ∅ (w_groups w !! (hash, fname)) !! fname = None ->
  is_ok (folded_args_metadata signature config
           (initial_metadata device_type options (w_env w))) = true ->
  src_ext src ∉ dict_keys stages ->
  run w = (with_trace w [EGetGroup hash fname; EAddStages],
           inl (ValueError "is not in list")).
Proof.
  intros Hmiss Hmd Hext. rewrite (compile_miss_early Hmiss). cbn zeta.
  destruct (folded_args_metadata _ _ _) as [e|md0]; [discriminate|].
  by rewrite (list_index_None _ _ Hext).
Qed.

Lemma compile_quiet :
  Forall (fun e => is_stage_call e = false) (new_events w (run w).1) ->
  w_files (run w).1 = w_files w /\ w_groups (run w).1 = w_groups w.
Proof.
  intros Hquiet.
  destruct (default ∅ (w_groups w !! (hash, fname)) !! fname) as [mp|] eqn:Hprobe.
  - assert (Hg : exists g, w_groups w !! (hash, fname) = Some g /\ g !! fname = Some mp).
    { destruct (w_groups w !! _) as [g|]; [eauto|]. simpl in Hprobe.
      by rewrite lookup_empty in Hprobe. }
    destruct Hg as (g & Hg & Hmp).
    destruct (compile_hit_run backend src_arg device_type signature config constants
                extern_libs kwargs w options src_h Hrefine Hhash g mp Hg Hmp)
      as (_ & Hf & Hgr & _). done.
  - pose proof (compile_miss_early Hprobe) as Hrun. cbn zeta in Hrun.
    destruct (folded_args_metadata _ _ _) as [e|md0] eqn:Hmd;
      [by rewrite Hrun|].
    destruct (list_index _ _) as [e|first] eqn:Hidx; [by rewrite Hrun|].
    destruct (make_ir src options) as [e|module0] eqn:Hir; [by rewrite Hrun|].
    clear Hrun. exfalso.
    pose proof (compile_miss_run backend src_arg device_type signature config
                  constants extern_libs kwargs w options src_h Hrefine Hhash
                  md0 first module0 Hprobe Hmd Hidx Hir) as Hrun.
    cbn zeta in Hrun.
    pose proof (list_index_lt _ _ _ Hidx) as Hlt.
    unfold dict_keys in Hlt. rewrite length_fmap in Hlt.
    destruct (drop first stages) as [|[ext lower] rest] eqn:Hd.
    { apply (f_equal length) in Hd. rewrite length_drop in Hd. simpl in Hd. lia. }
    assert (Hin : EStage ext module0 md0 ∈ new_events w (run w).1).
    { cbn [chain_events] in Hrun.
      destruct (chain_result _ _ _) as [e|[m md]];
        destruct Hrun as (-> & _); set_solver. }
    rewrite Forall_forall in Hquiet. by specialize (Hquiet _ Hin).
Qed.

End CompileMore.

(** X7. [compile] writes to the cache only in runs that call a stage: a
    run without a stage call, whether it hits the cache or fails before
    lowering, leaves the files and the groups of the store as they
    were. *)
Theorem compile_writes_only_when_lowering `{Runtime} backend src_arg device_type
    signature config constants extern_libs kwargs (w : World) :
  let out := compile backend src_arg device_type signature config constants
                     extern_libs kwargs w in
  Forall (fun e => is_stage_call e = false) (new_events w out.1) ->
  w_files out.1 = w_files w /\ w_groups out.1 = w_groups w.
Proof.
  intros out Hquiet. subst out.
  destruct (update_options (make_source src_arg signature constants config)
              (parse_options backend kwargs)) as [e|options] eqn:Hrefine.
  { unfold compile, bind, lift. by rewrite Hrefine. }
  destruct (src_hash (make_source src_arg signature constants config))
    as [e|src_h] eqn:Hhash.
  { unfold compile. unfold bind at 1, lift at 1. rewrite Hrefine.
    unfold bind at 1, lift at 1. by rewrite Hhash. }
  exact (compile_quiet backend src_arg device_type signature config constants
           extern_libs kwargs w options src_h Hrefine Hhash Hquiet).
Qed.

Lemma handle_of_files_inv `{Runtime} so mp files k :
  handle_of_files so mp files = inr k ->
  exists text, files !! p_dir mp ≫= (.!! p_name mp) = Some text
               /\ json_loads text = inr (metadata k)
               /\ c_wrapper k = so /\ attrs k = metadata k
               /\ module k = None /\ function k = None
               /\ asm k !! binary_ext = Some (kernel k).
Proof.
  unfold handle_of_files.
  destruct (files !! p_dir mp ≫= _) as [text|]; [|discriminate].
  destruct (json_loads text) as [e|md] eqn:Ej; [discriminate|]. cbn zeta.
  destruct (glob_asm _ _ !! binary_ext) as [b|] eqn:Eb; [|discriminate].
  intros [= <-]. exists text. simpl. auto 10.
Qed.

(** X8. After a compile that missed the cache and returned a handle, the
    same request made in the world it left, by the same interpreter or
    by any interpreter that prints the frozenset of the environment in
    the same order, is a hit: it only probes the group, reads the
    metadata file and builds the stub, calls no stage and writes
    nothing, and the handle it returns differs from the first at most
    in its launcher. *)
Theorem compile_twice `{Runtime} backend src_arg device_type signature config
    constants extern_libs kwargs (w : World) options src_h md0 first module0 k1
    (seed' : Z) :
  let src := make_source src_arg signature constants config in
  let run := compile backend src_arg device_type signature config constants
                     extern_libs kwargs in
  let hash := md5_hexdigest (cache_key (w_seed w) src_h (backend_hash backend)
                                       (options_hash backend options) (w_env w)) in
  let fname := src_name src +:+ ".json" in
  let stages := dict_of_assignments (add_stages backend extern_libs options) in
  let mp := {| p_dir := hash; p_name := fname |} in
  update_options src (parse_options backend kwargs) = inr options ->
  src_hash src = inr src_h ->
  default ∅ (w_groups w !! (hash, fname)) !! fname = None ->
  folded_args_metadata signature config
    (initial_metadata device_type options (w_env w)) = inr md0 ->
  list_index (src_ext src) (dict_keys stages) = inr first ->
  make_ir src options = inr module0 ->
  (run w).2 = inr k1 ->
  str_frozenset seed' (sorted (w_env w)) = str_frozenset (w_seed w) (sorted (w_env w)) ->
  let w' := with_seed (run w).1 seed' in
  let again := run w' in
  (exists md, new_events w' again.1
              = [EGetGroup hash fname; EReadText mp; EMakeStub md; EReadText mp])
  /\ (exists k2, again.2 = inr k2 /\ with_launcher k2 (c_wrapper k1) = k1)
  /\ w_files again.1 = w_files (run w).1
  /\ w_groups again.1 = w_groups (run w).1.
Proof.
  intros src run hash fname stages mp Hrefine Hhash Hmiss Hmd Hidx Hir Hk1 Hprint
         w' again.
  subst again w' run. cbn zeta in *. revert Hk1.
  rewrite (compile_miss backend src_arg device_type signature config constants
             extern_libs kwargs w options src_h Hrefine Hhash md0 first module0
             Hmiss Hmd Hidx Hir).
  cbn zeta. fold src hash fname stages mp.
  destruct (chain_result _ module0 md0) as [e|[m md]]; [discriminate|].
  rewrite init_handle_of_files. cbn [fst snd].
  set (group := <[fname := mp]> _).
  set (W3 := with_group _ hash fname group).
  intros Hk1.
  destruct (handle_of_files_inv _ _ _ _ Hk1) as (text & Hfile & Hjson & _).
  set (W4 := with_seed (with_trace W3 [EReadText mp]) seed').
  assert (Hkey : md5_hexdigest
                   (cache_key (w_seed W4) src_h (backend_hash backend)
                              (options_hash backend options) (w_env W4)) = hash).
  { change (w_seed W4) with seed'. change (w_env W4) with (w_env w).
    subst hash. f_equal. by apply cache_key_seeds. }
  assert (Hgroup : w_groups W4 !! (hash, fname) = Some group).
  { subst W4 W3. cbn. apply lookup_insert_eq. }
  assert (Hmp : group !! fname = Some mp) by apply lookup_insert_eq.
  pose proof (compile_hit backend src_arg device_type signature config constants
                extern_libs kwargs W4 options src_h Hrefine Hhash group mp) as Hhit.
  cbn zeta in Hhit. fold src fname in Hhit. rewrite Hkey in Hhit.
  specialize (Hhit Hgroup Hmp). fold mp in Hhit.
  change (w_files W4) with (w_files W3) in Hhit.
  change (p_dir mp) with hash in Hfile. change (p_name mp) with fname in Hfile.
  change (p_dir mp) with hash in Hhit. change (p_name mp) with fname in Hhit.
  rewrite Hfile, Hjson in Hhit. rewrite init_handle_of_files in Hhit.
  rewrite Hhit. cbn [fst snd].
  split; [|split; [|done]].
  - exists (metadata k1). apply new_events_app. cbn. by rewrite <- !app_assoc.
  - change (w_files (with_trace _ _)) with (w_files W3).
    eexists. split; [by apply (handle_of_files_launcher _ _ _ _ _ Hk1)|].
    by destruct k1.
Qed.

(** ** The artifacts of a run *)

Lemma append_inj_r (a b c : string) : a +:+ b = a +:+ c -> b = c.
Proof.
  induction a as [|x a IH]; [done|]. rewrite !append_cons. intros [= E]. auto.
Qed.

Lemma artifact_name_inj name e1 e2 :
  artifact_name name e1 = artifact_name name e2 -> e1 = e2.
Proof.
  unfold artifact_name. intros E%append_inj_r. by injection E.
Qed.

Lemma file_at_write hash name data files f :
  write_file hash name data files !! hash ≫= (.!! f)
  = if decide (f = name) then Some data else files !! hash ≫= (.!! f).
Proof.
  unfold write_file. rewrite lookup_insert_eq. simpl.
  destruct (decide (f = name)) as [->|Hne].
  - apply lookup_insert_eq.
  - rewrite lookup_insert_ne by done. by destruct (files !! hash).
Qed.

Lemma chain_outputs_exts stages : forall module md,
  fst <$> chain_outputs stages module md `prefix_of` dict_keys stages.
Proof.
  induction stages as [|[ext lower] rest IH]; intros module md; simpl.
  - apply prefix_nil.
  - destruct (lower module md) as [e|[m' md']]; simpl; [apply prefix_nil|].
    apply prefix_cons, IH.
Qed.

Lemma chain_files_other hash name stages : forall module md files f,
  (forall ext, ext ∈ dict_keys stages -> f <> artifact_name name ext) ->
  chain_files hash name stages module md files !! hash ≫= (.!! f)
  = files !! hash ≫= (.!! f).
Proof.
  induction stages as [|[ext lower] rest IH]; intros module md files f Hf; [done|].
  cbn [chain_files]. destruct (lower module md) as [e|[m' md']]; [done|].
  rewrite IH.
  - rewrite file_at_write. rewrite decide_False; [done|].
    apply Hf. apply elem_of_cons. by left.
  - intros e He. apply Hf. apply elem_of_cons. by right.
Qed.

Lemma chain_files_other_dir hash name stages : forall module md files dir,
  dir <> hash ->
  chain_files hash name stages module md files !! dir = files !! dir.
Proof.
  induction stages as [|[ext lower] rest IH]; intros module md files dir Hd; [done|].
  cbn [chain_files]. destruct (lower module md) as [e|[m' md']]; [done|].
  rewrite IH by done. unfold write_file. by rewrite lookup_insert_ne.
Qed.

Lemma chain_files_output hash name stages : forall module md files ext art,
  NoDup (dict_keys stages) ->
  (ext, art) ∈ chain_outputs stages module md ->
  chain_files hash name stages module md files !! hash
    ≫= (.!! artifact_name name ext) = Some art.
Proof.
  induction stages as [|[e lower] rest IH]; intros module md files ext art Hnd Hin.
  { by apply elem_of_nil in Hin. }
  cbn [chain_files chain_outputs] in *.
  apply NoDup_cons in Hnd as [Hfresh Hnd].
  destruct (lower module md) as [err|[m' md']]; [by apply elem_of_nil in Hin|].
  apply elem_of_cons in Hin as [[= -> ->]|Hin].
  - rewrite chain_files_other.
    + rewrite file_at_write. by rewrite decide_True.
    + intros e' He' Heq%artifact_name_inj. by subst.
  - by apply IH.
Qed.

Lemma chain_group_other hash name stages : forall module md group f,
  (forall ext, ext ∈ dict_keys stages -> f <> artifact_name name ext) ->
  chain_group hash name stages module md group !! f = group !! f.
Proof.
  induction stages as [|[ext lower] rest IH]; intros module md group f Hf; [done|].
  cbn [chain_group]. destruct (lower module md) as [e|[m' md']]; [done|].
  rewrite IH.
  - rewrite lookup_insert_ne; [done|]. intros Heq. symmetry in Heq. revert Heq.
    apply Hf. apply elem_of_cons. by left.
  - intros e He. apply Hf. apply elem_of_cons. by right.
Qed.

Lemma chain_group_output hash name stages : forall module md group ext art,
  NoDup (dict_keys stages) ->
  (ext, art) ∈ chain_outputs stages module md ->
  chain_group hash name stages module md group !! artifact_name name ext
  = Some {| p_dir := hash; p_name := artifact_name name ext |}.
Proof.
  induction stages as [|[e lower] rest IH]; intros module md group ext art Hnd Hin.
  { by apply elem_of_nil in Hin. }
  cbn [chain_group chain_outputs] in *.
  apply NoDup_cons in Hnd as [Hfresh Hnd].
  destruct (lower module md) as [err|[m' md']]; [by apply elem_of_nil in Hin|].
  apply elem_of_cons in Hin as [[= -> ->]|Hin].
  - rewrite chain_group_other.
    + apply lookup_insert_eq.
    + intros e' He' Heq%artifact_name_inj. by subst.
  - by eapply IH.
Qed.

Lemma drop_dict_NoDup {V} (l : list (string * V)) n :
  NoDup (dict_keys (drop n (dict_of_assignments l))).
Proof.
  pose proof (dict_of_assignments_NoDup l) as Hnd.
  rewrite <- (take_drop n (dict_of_assignments l)) in Hnd.
  unfold dict_keys in *. rewrite fmap_app in Hnd.
  by apply NoDup_app in Hnd as (_ & _ & Hnd).
Qed.

Lemma chain_outputs_all stages : forall module md module' md',
  chain_result stages module md = inr (module', md') ->
  fst <$> chain_outputs stages module md = dict_keys stages
  /\ last (module :: (snd <$> chain_outputs stages module md)) = Some module'.
Proof.
  induction stages as [|[ext lower] rest IH]; intros module md module' md'.
  - simpl. by intros [= -> _].
  - cbn [chain_result chain_outputs].
    destruct (lower module md) as [e|[m1 md1]]; [discriminate|].
    intros Hr. destruct (IH _ _ _ _ Hr) as [Hk Hl]. split.
    + unfold dict_keys in *. cbn [fmap list_fmap fst]. by rewrite Hk.
    + cbn [fmap list_fmap snd]. by rewrite last_cons_cons.
Qed.

Section CompileArtifacts.
Context `{Runtime}.
Variables (backend : Backend) (src_arg : SourceArg) (device_type : value)
  (signature : option (odict string)) (config : InstanceDescriptor)
  (constants : option (odict value)) (extern_libs : value)
  (kwargs : gmap string value).
Variables (w : World) (options : gmap string value) (src_h : string).

Local Abbreviation src := (make_source src_arg signature constants config).
Local Abbreviation run :=
  (compile backend src_arg device_type signature config constants extern_libs kwargs).
Local Abbreviation hash :=
  (md5_hexdigest (cache_key (w_seed w) src_h (backend_hash backend)
                            (options_hash backend options) (w_env w))).
Local Abbreviation fname := (src_name src +:+ ".json").
Local Abbreviation stages := (dict_of_assignments (add_stages backend extern_libs options)).

Hypothesis Hrefine : update_options src (parse_options backend kwargs) = inr options.
Hypothesis Hhash : src_hash src = inr src_h.

(** X9. After a run that missed the cache and whose stages all
    succeeded, the artifact of every stage of the chain, unless its
    format is called json, can be read back from the run's directory
    under [{name}.{ext}] and is listed under that name in the committed
    group; the metadata file holds the serialised final metadata; every
    stage from the source's format on has an artifact, and the last one
    is the final module. *)
Theorem compile_artifacts_stored md0 first module0 module' md :
  default ∅ (w_groups w !! (hash, fname)) !! fname = None ->
  folded_args_metadata signature config
    (initial_metadata device_type options (w_env w)) = inr md0 ->
  list_index (src_ext src) (dict_keys stages) = inr first ->
  make_ir src options = inr module0 ->
  chain_result (drop first stages) module0 md0 = inr (module', md) ->
  let out := run w in
  let outputs := chain_outputs (drop first stages) module0 md0 in
  let at_ name := {| p_dir := hash; p_name := name |} in
  fst <$> outputs = dict_keys (drop first stages)
  /\ last (module0 :: (snd <$> outputs)) = Some module'
  /\ file_at out.1 (at_ fname) = Some (json_dumps md)
  /\ (exists group,
        w_groups out.1 !! (hash, fname) = Some group
        /\ group !! fname = Some (at_ fname)
        /\ forall ext art, (ext, art) ∈ outputs -> ext <> "json" ->
             group !! artifact_name (src_name src) ext
             = Some (at_ (artifact_name (src_name src) ext)))
  /\ (forall ext art, (ext, art) ∈ outputs -> ext <> "json" ->
        file_at out.1 (at_ (artifact_name (src_name src) ext)) = Some art).
Proof.
  intros Hmiss Hmd Hidx Hir Hres out outputs at_.
  pose proof (compile_miss_run backend src_arg device_type signature config
                constants extern_libs kwargs w options src_h Hrefine Hhash
                md0 first module0 Hmiss Hmd Hidx Hir) as Hrun.
  cbn zeta in Hrun. fold out in Hrun. rewrite Hres in Hrun.
  destruct Hrun as (_ & Hgroups & Hfiles & _).
  destruct (chain_outputs_all _ _ _ _ _ Hres) as [Hkeys Hlast].
  pose proof (drop_dict_NoDup (add_stages backend extern_libs options) first) as Hnd.
  assert (Hne : forall ext, ext <> "json" ->
                  artifact_name (src_name src) ext <> fname).
  { intros ext Hext Heq. apply Hext.
    by apply (artifact_name_inj (src_name src) ext "json"). }
  split; [exact Hkeys|]. split; [exact Hlast|]. split; [|split].
  - unfold file_at. rewrite Hfiles. cbn [p_dir p_name at_].
    rewrite file_at_write. by rewrite decide_True.
  - eexists. split; [rewrite Hgroups; apply lookup_insert_eq|].
    split; [apply lookup_insert_eq|].
    intros ext art Hin Hext. rewrite lookup_insert_ne by (symmetry; by apply Hne).
    by apply (chain_group_output _ _ _ _ _ _ _ art).
  - intros ext art Hin Hext. unfold file_at. rewrite Hfiles. cbn [p_dir p_name at_].
    rewrite file_at_write. rewrite decide_False by by apply Hne.
    by apply chain_files_output.
Qed.

End CompileArtifacts.

(** ** Names of files *)

Lemma rsplit_dot_plain ext : has_char "." ext = false -> rsplit_dot ext = None.
Proof.
  induction ext as [|c ext IH]; [done|]. cbn [has_char rsplit_dot].
  intros [Hc He]%orb_false_elim. rewrite (IH He).
  rewrite Ascii.eqb_sym in Hc. by rewrite Hc.
Qed.

Lemma rsplit_dot_app a ext :
  has_char "." ext = false -> rsplit_dot (a +:+ "." +:+ ext) = Some (a, ext).
Proof.
  intros He. induction a as [|c a IH].
  - change ("" +:+ "." +:+ ext) with (String "." ext). cbn [rsplit_dot].
    by rewrite (rsplit_dot_plain _ He).
  - rewrite append_cons. cbn [rsplit_dot]. by rewrite IH.
Qed.

Lemma path_suffix_artifact name ext :
  name <> EmptyString -> plain_ext ext ->
  path_suffix (artifact_name name ext) = String "." ext
  /\ path_stem (artifact_name name ext) = name.
Proof.
  intros Hn [He Hd]. unfold path_suffix, path_stem, artifact_name.
  rewrite (rsplit_dot_app _ _ Hd). by destruct name, ext.
Qed.

Lemma path_suffix_shape name :
  path_suffix name = EmptyString
  \/ exists c a, path_suffix name = String "." (String c a).
Proof.
  unfold path_suffix. destruct (rsplit_dot name) as [[[|b bs] [|c a]]|]; eauto.
Qed.

Lemma string_prefix_app a b : String.prefix a (a +:+ b) = true.
Proof.
  induction a as [|c a IH]; [by destruct b|]. rewrite append_cons.
  cbn [String.prefix]. by destruct (ascii_dec c c).
Qed.

(** ** What [glob_asm] collects *)

Lemma glob_asm_step stem name (data : string) (acc : gmap string string) :
  (if String.prefix (stem +:+ ".") name
      && negb (String.eqb (path_suffix name) ".json")
   then <[drop_first (path_suffix name) := data]> acc else acc)
  = if glob_match stem name then <[asm_key name := data]> acc else acc.
Proof. reflexivity. Qed.

Lemma glob_asm_from dir stem key d :
  glob_asm dir stem !! key = Some d ->
  exists f, dir !! f = Some d /\ glob_match stem f = true /\ asm_key f = key.
Proof.
  unfold glob_asm. revert key d.
  apply (map_fold_weak_ind
           (fun r (m : gmap string string) => forall key d, r !! key = Some d ->
              exists f, m !! f = Some d /\ glob_match stem f = true /\ asm_key f = key)).
  - intros key d. by rewrite lookup_empty.
  - intros i x m r Hi IH key d. rewrite glob_asm_step.
    destruct (glob_match stem i) eqn:Em.
    + destruct (decide (asm_key i = key)) as [<-|Hne].
      * rewrite lookup_insert_eq. intros [= <-]. exists i.
        by rewrite lookup_insert_eq.
      * rewrite lookup_insert_ne by done. intros Hr.
        destruct (IH _ _ Hr) as (f & Hf & Hm & Hk). exists f.
        rewrite lookup_insert_ne; [done|]. intros ->. congruence.
    + intros Hr. destruct (IH _ _ Hr) as (f & Hf & Hm & Hk). exists f.
      rewrite lookup_insert_ne; [done|]. intros ->. congruence.
Qed.

Lemma glob_asm_to dir stem :
  distinct_suffixes stem dir ->
  forall f d, dir !! f = Some d -> glob_match stem f = true ->
              glob_asm dir stem !! asm_key f = Some d.
Proof.
  unfold glob_asm.
  apply (map_fold_weak_ind
           (fun r (m : gmap string string) => distinct_suffixes stem m ->
              forall f d, m !! f = Some d -> glob_match stem f = true ->
                          r !! asm_key f = Some d)).
  - intros _ f d. by rewrite lookup_empty.
  - intros i x m r Hi IH Hdist f d Hf Hm. rewrite glob_asm_step.
    assert (Hdist' : distinct_suffixes stem m).
    { intros f1 f2 [d1 H1] [d2 H2] Hm1 Hm2 Hk. apply Hdist; try done.
      - exists d1. rewrite lookup_insert_ne; [done|]. intros ->. congruence.
      - exists d2. rewrite lookup_insert_ne; [done|]. intros ->. congruence. }
    destruct (decide (f = i)) as [->|Hne].
    + rewrite lookup_insert_eq in Hf. injection Hf as ->. rewrite Hm.
      apply lookup_insert_eq.
    + rewrite lookup_insert_ne in Hf by done.
      destruct (glob_match stem i) eqn:Emi; [|by apply IH].
      rewrite lookup_insert_ne; [by apply IH|].
      intros Hk. apply Hne. symmetry. apply Hdist; try done.
      * exists x. apply lookup_insert_eq.
      * exists d. by rewrite lookup_insert_ne.
Qed.

Lemma glob_asm_no_json dir stem : glob_asm dir stem !! "json" = None.
Proof.
  destruct (glob_asm dir stem !! "json") as [d|] eqn:E; [|done].
  destruct (glob_asm_from _ _ _ _ E) as (f & _ & Hm & Hk).
  unfold glob_match in Hm. apply andb_prop in Hm as [_ Hm].
  unfold asm_key in Hk.
  destruct (path_suffix_shape f) as [Hs|(c & a & Hs)]; rewrite Hs in Hk, Hm.
  - discriminate Hk.
  - simpl in Hk. rewrite Hk in Hm. discriminate Hm.
Qed.

(** ** The handle of a run *)

Lemma chain_files_from hash name stages : forall module md files f d,
  chain_files hash name stages module md files !! hash ≫= (.!! f) = Some d ->
  files !! hash ≫= (.!! f) = Some d
  \/ exists e, (e, d) ∈ chain_outputs stages module md /\ f = artifact_name name e.
Proof.
  induction stages as [|[ext lower] rest IH]; intros module md files f d; [by left|].
  cbn [chain_files chain_outputs].
  destruct (lower module md) as [err|[m' md']]; [by left|].
  intros Hl. destruct (IH _ _ _ _ _ Hl) as [Hw|(e & He & ->)].
  - rewrite file_at_write in Hw. destruct (decide (f = artifact_name name ext)) as [->|].
    + injection Hw as <-. right. exists ext. split; [|done].
      apply elem_of_cons. by left.
    + by left.
  - right. exists e. split; [|done]. apply elem_of_cons. by right.
Qed.

Lemma default_dir_lookup (files : gmap string (gmap string string)) h f :
  default ∅ (files !! h) !! f = files !! h ≫= (.!! f).
Proof. destruct (files !! h); [done|]. simpl. apply lookup_empty. Qed.

Lemma handle_of_files_asm `{Runtime} so mp files k :
  handle_of_files so mp files = inr k ->
  asm k = glob_asm (default ∅ (files !! p_dir mp)) (path_stem (p_name mp)).
Proof.
  unfold handle_of_files.
  destruct (files !! p_dir mp ≫= _) as [text|]; [|discriminate].
  destruct (json_loads text) as [e|md]; [discriminate|]. cbn zeta.
  destruct (glob_asm _ _ !! binary_ext); [|discriminate]. by intros [= <-].
Qed.

Lemma glob_match_artifact name ext :
  name <> EmptyString -> plain_ext ext -> ext <> "json" ->
  glob_match name (artifact_name name ext) = true
  /\ asm_key (artifact_name name ext) = ext.
Proof.
  intros Hn He Hj. destruct (path_suffix_artifact name ext Hn He) as [Hs _].
  unfold glob_match, asm_key. rewrite Hs. split; [|done].
  apply andb_true_intro. split.
  - unfold artifact_name. rewrite <- app_string_assoc. apply string_prefix_app.
  - apply negb_true_iff, String.eqb_neq. intros [= ->]. done.
Qed.

Section CompileHandle.
Context `{Runtime}.
Variables (backend : Backend) (src_arg : SourceArg) (device_type : value)
  (signature : option (odict string)) (config : InstanceDescriptor)
  (constants : option (odict value)) (extern_libs : value)
  (kwargs : gmap string value).
Variables (w : World) (options : gmap string value) (src_h : string).

Local Abbreviation src := (make_source src_arg signature constants config).
Local Abbreviation run :=
  (compile backend src_arg device_type signature config constants extern_libs kwargs).
Local Abbreviation hash :=
  (md5_hexdigest (cache_key (w_seed w) src_h (backend_hash backend)
                            (options_hash backend options) (w_env w))).
Local Abbreviation fname := (src_name src +:+ ".json").
Local Abbreviation stages := (dict_of_assignments (add_stages backend extern_libs options)).

Hypothesis Hrefine : update_options src (parse_options backend kwargs) = inr options.
Hypothesis Hhash : src_hash src = inr src_h.

(** X10. The handle that a compile returns after a miss, run in a fresh
    directory of the store with stage formats that are plain suffixes,
    exposes under [asm] exactly the artifacts of the stages that ran,
    each under its format (the metadata file and a format called json
    left out), and its [kernel] is the artifact of the stage named by
    the driver's binary format. *)
Theorem compile_handle_asm md0 first module0 k :
  default ∅ (w_groups w !! (hash, fname)) !! fname = None ->
  folded_args_metadata signature config
    (initial_metadata device_type options (w_env w)) = inr md0 ->
  list_index (src_ext src) (dict_keys stages) = inr first ->
  make_ir src options = inr module0 ->
  (run w).2 = inr k ->
  src_name src <> EmptyString ->
  w_files w !! hash = None ->
  Forall plain_ext (dict_keys (drop first stages)) ->
  let outputs := chain_outputs (drop first stages) module0 md0 in
  (forall ext art, (ext, art) ∈ outputs -> ext <> "json" -> asm k !! ext = Some art)
  /\ (forall ext art, asm k !! ext = Some art -> (ext, art) ∈ outputs)
  /\ (binary_ext, kernel k) ∈ outputs.
Proof.
  intros Hmiss Hmd Hidx Hir Hk Hname Hfresh Hplain outputs.
  revert Hk.
  rewrite (compile_miss backend src_arg device_type signature config constants
             extern_libs kwargs w options src_h Hrefine Hhash md0 first module0
             Hmiss Hmd Hidx Hir).
  cbn zeta.
  destruct (chain_result _ module0 md0) as [e|[m md]] eqn:Hres; [discriminate|].
  rewrite init_handle_of_files. cbn [fst snd].
  set (mp := {| p_dir := hash; p_name := fname |}).
  match goal with |- handle_of_files ?so mp ?F = _ -> _ =>
    set (files := F); set (so_path := so) end.
  intros Hk.
  pose proof (handle_of_files_asm _ _ _ _ Hk) as Hasm.
  destruct (handle_of_files_inv _ _ _ _ Hk) as (_ & _ & _ & _ & _ & _ & _ & Hkernel).
  cbn [p_dir p_name mp] in Hasm.
  assert (Hstem : path_stem fname = src_name src).
  { apply (path_suffix_artifact (src_name src) "json"); [done|]. by split. }
  assert (Hjson : path_suffix fname = ".json").
  { apply (path_suffix_artifact (src_name src) "json"); [done|]. by split. }
  rewrite Hstem in Hasm.
  set (dir := default ∅ (files !! hash)) in Hasm.
  pose proof (drop_dict_NoDup (add_stages backend extern_libs options) first) as Hnd.
  assert (Hfiles : files
                   = write_file hash fname (json_dumps md)
                       (chain_files hash (src_name src) (drop first stages)
                                    module0 md0 (w_files w))) by reflexivity.
  assert (Hext_plain : forall e d, (e, d) ∈ outputs -> plain_ext e).
  { intros e d Hin. rewrite Forall_forall in Hplain. apply Hplain.
    destruct (chain_outputs_exts (drop first stages) module0 md0) as [rest Hp].
    fold outputs in Hp. rewrite Hp. apply elem_of_app. left.
    apply list_elem_of_fmap. by exists (e, d). }
  assert (Hdir_out : forall e d, (e, d) ∈ outputs -> e <> "json" ->
            dir !! artifact_name (src_name src) e = Some d).
  { intros e d Hin Hj. subst dir. rewrite default_dir_lookup, Hfiles, file_at_write.
    rewrite decide_False.
    - by apply chain_files_output.
    - intros Heq. apply Hj. by apply (artifact_name_inj (src_name src) e "json"). }
  assert (Hdir_in : forall f d, dir !! f = Some d -> glob_match (src_name src) f = true ->
            exists e, (e, d) ∈ outputs /\ f = artifact_name (src_name src) e).
  { intros f d Hf Hm. subst dir. rewrite default_dir_lookup, Hfiles, file_at_write in Hf.
    destruct (decide (f = fname)) as [->|Hne].
    - unfold glob_match in Hm. rewrite Hjson in Hm.
      apply andb_prop in Hm as [_ Hm]. discriminate Hm.
    - apply chain_files_from in Hf as [Hold|Hnew]; [|done].
      by rewrite Hfresh in Hold. }
  assert (Hkey : forall e d, (e, d) ∈ outputs -> e <> "json" ->
            glob_match (src_name src) (artifact_name (src_name src) e) = true
            /\ asm_key (artifact_name (src_name src) e) = e).
  { intros e d Hin Hj. apply glob_match_artifact; eauto. }
  assert (Hnot_json : forall f d e, dir !! f = Some d ->
            glob_match (src_name src) f = true ->
            f = artifact_name (src_name src) e -> e <> "json").
  { intros f d e Hf Hm -> ->. unfold glob_match in Hm.
    change (artifact_name (src_name src) "json") with fname in Hm.
    rewrite Hjson in Hm. apply andb_prop in Hm as [_ Hm]. discriminate Hm. }
  assert (Hdist : distinct_suffixes (src_name src) dir).
  { intros f1 f2 [d1 H1] [d2 H2] Hm1 Hm2 Hk12.
    destruct (Hdir_in _ _ H1 Hm1) as (e1 & He1 & ->).
    destruct (Hdir_in _ _ H2 Hm2) as (e2 & He2 & ->).
    pose proof (Hnot_json _ _ _ H1 Hm1 eq_refl) as Hj1.
    pose proof (Hnot_json _ _ _ H2 Hm2 eq_refl) as Hj2.
    destruct (Hkey _ _ He1 Hj1) as [_ K1]. destruct (Hkey _ _ He2 Hj2) as [_ K2].
    congruence. }
  assert (Hback : forall ext art, asm k !! ext = Some art -> (ext, art) ∈ outputs).
  { intros ext art Hl. rewrite Hasm in Hl.
    destruct (glob_asm_from _ _ _ _ Hl) as (f & Hf & Hm & Hkf).
    destruct (Hdir_in _ _ Hf Hm) as (e & He & ->).
    pose proof (Hnot_json _ _ _ Hf Hm eq_refl) as Hj.
    destruct (Hkey _ _ He Hj) as [_ K]. congruence. }
  split; [|split; [exact Hback|by apply Hback]].
  intros ext art Hin Hj. rewrite Hasm.
  destruct (Hkey _ _ Hin Hj) as [Hm K]. rewrite <- K at 1.
  apply glob_asm_to; [exact Hdist| |exact Hm]. by apply Hdir_out.
Qed.

End CompileHandle.

(** ** Accesses in sequence *)

Lemma init_handles_step d calls k :
  (bound k = true /\ _init_handles d calls k = (calls, k, inr tt))
  \/ (bound k = false
      /\ exists e, _init_handles d calls k
                   = (calls ++ [QueryDevice (get_current_device d)], k, inl e))
  \/ (bound k = false
      /\ exists name shared k',
           attr_name k = inr name /\ attr_shared k = inr shared
           /\ shared <= max_shared_mem d (get_current_device d)
           /\ _init_handles d calls k
              = (calls ++ [QueryDevice (get_current_device d);
                           LoadBinary name (kernel k) shared (get_current_device d)],
                 k', inr tt)
           /\ bound k' = true /\ kernel k' = kernel k /\ asm k' = asm k
           /\ metadata k' = metadata k /\ c_wrapper k' = c_wrapper k).
Proof.
  unfold _init_handles, bound. destruct (module k) as [m|]; [by left|]. right.
  destruct (attr_shared k) as [e|shared]; [left; eauto|].
  destruct (_ <? _) eqn:Hlt; [left; eauto|].
  destruct (attr_name k) as [e|name]; [left; eauto|]. right.
  apply Z.ltb_ge in Hlt.
  destruct (load_binary _ _ _ _ _) as [[[m f] r] s].
  split; [done|]. eexists name, shared, _. rewrite <- app_assoc.
  repeat split; try reflexivity. done.
Qed.

Lemma init_many_bound ds : forall calls k,
  bound k = true -> init_many ds calls k = (calls, k).
Proof.
  induction ds as [|d ds IH]; intros calls k Hb; [done|]. cbn [init_many].
  rewrite (init_handles_bound d calls k Hb). by apply IH.
Qed.

(** X11. Over any sequence of accesses to a handle, whatever the driver
    reports at each of them: the driver is asked for the device
    properties at most once per access and [load_binary] is called at
    most once, as the last call of all; a handle that was bound stays as
    it is and causes no call; the one load is made with the handle's own
    kernel, name and shared-memory requirement, and the launcher, the
    metadata, the kernel and the IR texts of the handle never change. *)
Theorem init_many_loads_once ds calls k :
  let out := init_many ds calls k in
  (bound k = true -> out = (calls, k))
  /\ exists queries,
       Forall (fun c => is_load c = false) queries
       /\ (length queries <= length ds)%nat
       /\ (out = (calls ++ queries, k)
           \/ (bound k = false /\ bound out.2 = true
               /\ (exists name shared device,
                     attr_name k = inr name /\ attr_shared k = inr shared
                     /\ out.1 = calls ++ queries
                                  ++ [LoadBinary name (kernel k) shared device])
               /\ kernel out.2 = kernel k /\ asm out.2 = asm k
               /\ metadata out.2 = metadata k /\ c_wrapper out.2 = c_wrapper k)).
Proof.
  intros out. subst out. split; [apply init_many_bound|].
  revert calls k. induction ds as [|d ds IH]; intros calls k.
  - exists []. split; [done|]. split; [done|]. left. by rewrite app_nil_r.
  - cbn [init_many].
    destruct (init_handles_step d calls k)
      as [[Hb ->]|[[Hb [e ->]]|[Hb (name & shared & k' & Hn & Hs & _ & -> & Hb' & Hk & Ha & Hm & Hc)]]].
    + destruct (IH calls k) as (queries & Hq & Hlen & Hout).
      exists queries. split; [done|]. split; [simpl; lia|done].
    + destruct (IH (calls ++ [QueryDevice (get_current_device d)]) k)
        as (queries & Hq & Hlen & Hout).
      exists (QueryDevice (get_current_device d) :: queries).
      split; [by constructor|]. split; [simpl; lia|].
      destruct Hout as [->|(_ & Hb2 & (n & s & dev & Hn & Hs & Hcalls) & Hrest)].
      * left. by rewrite <- app_assoc.
      * right. split; [done|]. split; [done|]. split; [|done].
        exists n, s, dev. split; [done|]. split; [done|].
        rewrite Hcalls. by rewrite <- !app_assoc.
    + rewrite (init_many_bound ds _ k' Hb'). cbn [fst snd].
      exists [QueryDevice (get_current_device d)].
      split; [by repeat constructor|]. split; [simpl; lia|]. right.
      split; [done|]. split; [done|]. split; [|done].
      exists name, shared, (get_current_device d). done.
Qed.

(** ** [compile] on a function with the default arguments *)

(** X13. Compiling a function fails before the cache is consulted
    unless both a configuration with its four sets and a signature are
    given: a configuration with a set left at [None], such as the
    default one, raises [TypeError], and otherwise a missing signature
    raises [AttributeError]; nothing is probed, lowered or written. *)
Theorem compile_function_defaults `{Runtime} backend fn device_type signature config
    constants extern_libs kwargs (w : World) :
  unset_field config \/ signature = None ->
  exists e,
    compile backend (ArgFn fn) device_type signature config constants
            extern_libs kwargs w = (w, inl e)
    /\ (unset_field config -> e = TypeError "'NoneType' object is not iterable")
    /\ (~ unset_field config -> e = AttributeError "values").
Proof.
  intros Hdef.
  assert (Hrun : forall e,
            ASTSource_hash {| ast_fn := fn; ast_signature := signature;
                              ast_constants := default [] constants;
                              ast_config := config |} = inl e ->
            compile backend (ArgFn fn) device_type signature config constants
                    extern_libs kwargs w = (w, inl e)).
  { intros e He. unfold compile. cbn [make_source update_options src_hash].
    unfold ASTSource_update_options.
    unfold bind at 1, lift at 1. unfold bind at 1, lift at 1. by rewrite He. }
  unfold ASTSource_hash, InstanceDescriptor_hash in Hrun. cbn [ast_config ast_signature] in Hrun.
  destruct config as [d16 e1 ids d8]. unfold unset_field in *. cbn in Hdef |- *.
  destruct d16 as [d16|], e1 as [e1|], ids as [ids|], d8 as [d8|]; cbn in Hrun;
    try (eexists; split; [by apply Hrun|]; split; [done|];
         intros Hn; exfalso; apply Hn; auto; fail).
  destruct Hdef as [Hu | ->]; [by destruct Hu as [|[|[|]]]|].
  eexists. split; [by apply Hrun|]. split; [|done].
  by intros [|[|[|]]].
Qed.

(** ** The warp count of a module text *)

Lemma suffixes_split s : forall t, t ∈ Re.suffixes s -> exists a, s = a +:+ t.
Proof.
  induction s as [|c s IH]; intros t; simpl.
  - intros [->|Hin]%elem_of_cons; [by exists ""|]. by apply elem_of_nil in Hin.
  - intros [->|Hin]%elem_of_cons; [by exists ""|].
    destruct (IH _ Hin) as [a ->]. by exists (String c a).
Qed.

Lemma accepts_rest p s g rest : Re.accepts p s g rest -> exists a, s = a +:+ rest.
Proof.
  induction 1 as [s|a p c s g rest _ _ _ [b ->]|a p c s g rest _ _ _ [b ->]
                 |a p s g rest _ _ IH|a p c s g rest _ _ _ [b ->]
                 |a p c s g rest _ _ _ [b ->]];
    try (by exists ""); try (by exists (String c b)). exact IH.
Qed.

Lemma append_empty_l (a b : string) : a +:+ b = b -> a = EmptyString.
Proof.
  intros Hab. apply (f_equal String.length) in Hab.
  rewrite length_app_string in Hab. destruct a; [done|]. simpl in Hab. lia.
Qed.

(** A pattern that matches at one position of a text only is reported
    once by the scan, or not at all. *)
Lemma findall_from_unique p t0 : forall pre n,
  (String.length (pre +:+ t0) < n)%nat ->
  (forall a t, pre +:+ t0 = a +:+ t -> is_Some (Re.match_here p t) -> a = pre) ->
  Re.findall_from n p (pre +:+ t0)
  = match Re.match_here p t0 with
    | Some (g, _) => [g]
    | None => []
    end.
Proof.
  assert (Hlater : forall n u b,
            (String.length u < n)%nat -> b <> EmptyString ->
            (forall a t, t0 = a +:+ t -> is_Some (Re.match_here p t) -> a = EmptyString) ->
            t0 = b +:+ u -> Re.findall_from n p u = []).
  { intros n u b Hn Hb Hone Hu. apply findall_from_nil; [done|].
    apply Forall_forall. intros t Ht. destruct (suffixes_split _ _ Ht) as [a ->].
    destruct (Re.match_here p t) as [r|] eqn:Em; [|done]. exfalso.
    rewrite <- app_string_assoc in Hu.
    pose proof (Hone _ _ Hu ltac:(by rewrite Em)) as Hnil.
    destruct b; [done|discriminate]. }
  induction pre as [|c pre IH]; intros n Hn Hone.
  - rewrite append_nil in *. destruct n as [|n]; [lia|]. cbn [Re.findall_from].
    destruct (Re.match_here p t0) as [[g rest]|] eqn:Em.
    + destruct (accepts_rest _ _ _ _ (match_here_sound _ _ _ _ Em)) as [b Hb].
      destruct (_ <? _)%nat eqn:Hlt.
      * apply Nat.ltb_lt in Hlt. f_equal.
        apply (Hlater n rest b); [lia| |done|done].
        intros ->. rewrite append_nil in Hb. subst. lia.
      * f_equal. destruct t0 as [|d t0']; [done|]. simpl in Hn.
        apply (Hlater n t0' (String d "")); [lia|done|done|done].
    + destruct t0 as [|d t0']; [done|]. simpl in Hn.
      apply (Hlater n t0' (String d "")); [lia|done|done|done].
  - rewrite append_cons in *. destruct n as [|n]; [lia|]. cbn [Re.findall_from].
    destruct (Re.match_here p (String c (pre +:+ t0))) as [r|] eqn:Em.
    { by specialize (Hone "" _ eq_refl ltac:(by eexists)). }
    simpl in Hn. apply IH; [lia|]. intros a t Hat Ht.
    specialize (Hone (String c a) t). rewrite append_cons, Hat in Hone.
    specialize (Hone eq_refl Ht). by injection Hone.
Qed.

(** An occurrence of the head that is the only one is where it is. *)
Lemma count_warps_heads_pos t : forall a,
  at_warps_head t = true -> (1 <= count_warps_heads (a +:+ t))%nat.
Proof.
  induction a as [|c a IH]; intros Ht.
  - rewrite append_nil. destruct t; cbn [count_warps_heads]; rewrite Ht; lia.
  - rewrite append_cons. cbn [count_warps_heads]. specialize (IH Ht). lia.
Qed.

Lemma warps_head_unique t0 t : forall pre a,
  at_warps_head t0 = true -> at_warps_head t = true ->
  pre +:+ t0 = a +:+ t ->
  count_warps_heads (pre +:+ t0) = 1%nat -> a = pre.
Proof.
  induction pre as [|c pre IH]; intros a H0 Ht Heq Hcount.
  - destruct a as [|d a]; [done|]. exfalso.
    rewrite append_nil in *. rewrite Heq, append_cons in Hcount.
    rewrite Heq, append_cons in H0.
    cbn [count_warps_heads] in Hcount. rewrite H0 in Hcount.
    pose proof (count_warps_heads_pos t a Ht). lia.
  - destruct a as [|d a].
    + exfalso. rewrite append_nil in Heq. rewrite append_cons in Hcount, Heq.
      cbn [count_warps_heads] in Hcount. rewrite Heq, Ht in Hcount.
      pose proof (count_warps_heads_pos t0 pre H0). lia.
    + rewrite !append_cons in Heq. injection Heq as -> Heq. f_equal.
      apply IH; [done|done|done|].
      rewrite append_cons in Hcount. cbn [count_warps_heads] in Hcount.
      pose proof (count_warps_heads_pos t0 pre H0).
      destruct (at_warps_head _) in Hcount; lia.
Qed.

Lemma warps_pattern_parts :
  ttgir_num_warps_pattern
  = Re.lit (dq +:+ "triton_gpu")
    ++ Re.Atom Re.is_dot Re.One false
    :: Re.lit ("num-warps" +:+ dq)
    ++ Re.Atom Re.is_space Re.Opt false
    :: Re.lit "="
    ++ [Re.Atom Re.is_space Re.Opt false; Re.Atom Re.is_digit Re.Plus true;
        Re.Atom Re.is_space Re.Opt false; Re.Atom (Re.is_char ":") Re.One false].
Proof. reflexivity. Qed.

Lemma groups_pattern_parts :
  num_warp_groups_pattern
  = Re.lit (dq +:+ "triton_gpu")
    ++ Re.Atom Re.is_dot Re.One false
    :: Re.lit ("num-warp-groups-per-cta" +:+ dq)
    ++ Re.Atom Re.is_space Re.Opt false
    :: Re.lit "="
    ++ [Re.Atom Re.is_space Re.Opt false; Re.Atom Re.is_digit Re.Plus true;
        Re.Atom Re.is_space Re.Opt false; Re.Atom (Re.is_char ":") Re.One false].
Proof. reflexivity. Qed.

(** Both patterns match only where the head stands. *)
Lemma match_at_head key q t :
  drop_prefix "num-warp" key <> None ->
  is_Some (Re.match_here
             (Re.lit (dq +:+ "triton_gpu")
              ++ Re.Atom Re.is_dot Re.One false :: Re.lit key ++ q) t) ->
  at_warps_head t = true.
Proof.
  intros Hkey. rewrite match_here_lit. unfold at_warps_head.
  destruct (drop_prefix _ t) as [s|]; [|by intros [? [=]]].
  cbn [Re.match_here Re.a_quant Re.a_class]. destruct s as [|x s]; [by intros [? [=]]|].
  destruct (Re.is_dot x); [|by intros [? [=]]].
  rewrite match_here_lit. destruct (drop_prefix key s) as [s'|] eqn:Ed;
    [|by intros [? [=]]].
  intros _. apply drop_prefix_Some in Ed as ->.
  destruct (drop_prefix "num-warp" key) as [k'|] eqn:Ek; [|done].
  apply drop_prefix_Some in Ek as ->. rewrite app_string_assoc.
  by rewrite drop_prefix_app.
Qed.

Lemma match_opt_space q sp s r :
  opt_space sp = true ->
  (forall c, first_char s = Some c -> Re.is_space c = false) ->
  Re.match_here q s = Some r ->
  Re.match_here (Re.Atom Re.is_space Re.Opt false :: q) (sp +:+ s) = Some r.
Proof.
  intros Hsp Hs Hq. cbn [Re.match_here Re.a_quant Re.a_class].
  destruct sp as [|c [|d sp]]; [| |done].
  - rewrite append_nil. destruct s as [|c s]; [done|].
    by rewrite (Hs c eq_refl).
  - cbn [opt_space] in Hsp. rewrite append_cons, append_nil, Hsp, Hq.
    by destruct r.
Qed.

Lemma match_digits q digits s rest :
  digits <> EmptyString -> all_chars Re.is_digit digits = true ->
  (forall c, first_char s = Some c -> Re.is_digit c = false) ->
  Re.match_here q s = Some (EmptyString, rest) ->
  Re.match_here (Re.Atom Re.is_digit Re.Plus true :: q) (digits +:+ s)
  = Some (digits, rest).
Proof.
  intros Hne Hall Hs Hq. cbn [Re.match_here Re.a_quant Re.a_class].
  induction digits as [|c ds IH]; [done|].
  rewrite append_cons. cbn [all_chars] in Hall.
  apply andb_prop in Hall as [Hc Hds]. rewrite Hc.
  destruct ds as [|d ds].
  - rewrite append_nil.
    assert (Hnone : forall t, t = s ->
              (fix more (t : string) : option (string * string) :=
                 match t with
                 | String c t' =>
                   if Re.is_digit c then
                     match more t' with
                     | Some r => Some (Re.keep (Re.Atom Re.is_digit Re.Plus true) c r)
                     | None => Re.keep (Re.Atom Re.is_digit Re.Plus true) c
                                 <$> Re.match_here q t'
                     end
                   else None
                 | EmptyString => None
                 end) t = None).
    { intros t ->. destruct s as [|e s]; [done|]. by rewrite (Hs e eq_refl). }
    rewrite (Hnone s eq_refl), Hq. reflexivity.
  - rewrite (IH ltac:(done) Hds). reflexivity.
Qed.

Lemma warps_attribute_text x sp1 sp2 digits sp3 post :
  warps_attribute x sp1 sp2 digits sp3 +:+ post
  = (dq +:+ "triton_gpu")
    +:+ String x (("num-warps" +:+ dq)
                  +:+ sp1 +:+ "=" +:+ sp2 +:+ digits +:+ sp3 +:+ ":" +:+ post).
Proof.
  unfold warps_attribute. rewrite !app_string_assoc. rewrite !append_cons.
  by rewrite !app_string_assoc.
Qed.

Lemma digits_first ds s c :
  ds <> EmptyString -> all_chars Re.is_digit ds = true ->
  first_char (ds +:+ s) = Some c -> Re.is_space c = false.
Proof.
  destruct ds as [|d ds]; [done|]. intros _ Hall. rewrite append_cons.
  cbn [first_char all_chars] in *. apply andb_prop in Hall as [Hd _].
  intros [= <-]. revert Hd. unfold Re.is_digit, Re.is_space.
  generalize (Re.code d). intros n Hd.
  apply andb_prop in Hd as [H1 H2]. apply N.leb_le in H1, H2.
  repeat (apply orb_false_intro); try (apply andb_false_iff);
    try (apply N.eqb_neq; lia).
  - right. apply N.leb_gt. lia.
  - right. apply N.leb_gt. lia.
Qed.

Lemma opt_space_first sp s c :
  opt_space sp = true ->
  (forall d, first_char s = Some d -> Re.is_digit d = false) ->
  first_char (sp +:+ s) = Some c -> Re.is_digit c = false.
Proof.
  destruct sp as [|e [|? ?]]; [| |done].
  - rewrite append_nil. auto.
  - cbn [opt_space]. rewrite append_cons. cbn [first_char]. intros He _ [= <-].
    revert He. unfold Re.is_digit, Re.is_space. generalize (Re.code e). intros n He.
    apply andb_false_iff.
    destruct (48 <=? n)%N eqn:H1; [right|by left]. apply N.leb_le in H1.
    apply N.leb_gt.
    repeat (apply orb_prop in He as [He|He]);
      try (apply andb_prop in He as [Ha Hb]; apply N.leb_le in Ha, Hb);
      try (apply N.eqb_eq in He); lia.
Qed.

Lemma keep_no_group a c (m : option (string * string)) :
  Re.a_group a = false -> Re.keep a c <$> m = m.
Proof. intros Hg. destruct m as [[g r]|]; [|done]. unfold Re.keep. simpl. by rewrite Hg. Qed.

Lemma warps_match_attribute x sp1 sp2 digits sp3 post :
  Re.is_dot x = true ->
  opt_space sp1 = true -> opt_space sp2 = true -> opt_space sp3 = true ->
  digits <> EmptyString -> all_chars Re.is_digit digits = true ->
  Re.match_here ttgir_num_warps_pattern
                (warps_attribute x sp1 sp2 digits sp3 +:+ post)
  = Some (digits, post).
Proof.
  intros Hx H1 H2 H3 Hne Hall.
  rewrite warps_attribute_text, warps_pattern_parts.
  rewrite match_here_lit, drop_prefix_app.
  cbn [Re.match_here Re.a_quant Re.a_class]. rewrite Hx.
  rewrite keep_no_group by done.
  rewrite match_here_lit, drop_prefix_app.
  apply match_opt_space; [done|by intros c [= <-]|].
  rewrite match_here_lit, drop_prefix_app.
  apply match_opt_space; [done|intros c; by apply digits_first|].
  apply match_digits; [done|done| |].
  - intros c. apply opt_space_first; [done|]. by intros d [= <-].
  - apply match_opt_space; [done|by intros c [= <-]|]. reflexivity.
Qed.

Lemma groups_match_attribute x sp1 sp2 digits sp3 post :
  Re.match_here num_warp_groups_pattern
                (warps_attribute x sp1 sp2 digits sp3 +:+ post)
  = None.
Proof.
  rewrite warps_attribute_text, groups_pattern_parts.
  rewrite match_here_lit, drop_prefix_app.
  cbn [Re.match_here Re.a_quant Re.a_class]. destruct (Re.is_dot x); [|done].
  by rewrite match_here_lit.
Qed.

Lemma warps_attribute_head x sp1 sp2 digits sp3 post :
  at_warps_head (warps_attribute x sp1 sp2 digits sp3 +:+ post) = true.
Proof.
  rewrite warps_attribute_text. unfold at_warps_head. by rewrite drop_prefix_app.
Qed.


(** ** The properties on sample requests *)

Lemma convert_type_repr_pointer_witness :
  convert_type_repr "!tt.ptr<f32, 1>" = String "*" (convert_type_repr "f32").
Proof.
  apply (convert_type_repr_pointer "" "f32" ", 1>");
    [reflexivity | discriminate | reflexivity |].
  intros c [= <-]. reflexivity.
Defined.

Lemma signature_of_text_join_witness :
  signature_of_text "*fp32, i32 ,  *fp16"
  = [(0%nat, "*fp32"); (1%nat, "i32"); (2%nat, "*fp16")].
Proof.
  apply (signature_of_text_join [("", "*fp32", ""); (" ", "i32", " "); ("  ", "*fp16", "")]);
    [discriminate|].
  repeat constructor; simpl; intros c [= <-]; reflexivity.
Defined.

Lemma InstanceDescriptor_hash_sets_witness :
  InstanceDescriptor_hash Sample.config_a = InstanceDescriptor_hash Sample.config_b.
Proof.
  apply (proj1 InstanceDescriptor_hash_sets Sample.config_a Sample.config_b).
  repeat split; simpl; try reflexivity; apply perm_swap.
Defined.

Lemma compile_unknown_format_witness :
  (compile Sample.late_backend (ArgPath Demo.request) Demo.device_type None
           Demo.no_config None VNone Demo.no_kwargs Demo.empty_world).2
  = inl (ValueError "is not in list").
Proof.
  rewrite (compile_unknown_format Sample.late_backend (ArgPath Demo.request)
             Demo.device_type None Demo.no_config None VNone Demo.no_kwargs
             Demo.empty_world Demo.refined (md5_hexdigest (ir_src Demo.request))
             ltac:(vm_compute; reflexivity) ltac:(vm_compute; reflexivity)
             ltac:(vm_compute; reflexivity) ltac:(vm_compute; reflexivity)
             ltac:(intros Hin; repeat (apply elem_of_cons in Hin as [Hin|Hin];
                                       [discriminate Hin|]);
                   by apply elem_of_nil in Hin)).
  reflexivity.
Defined.

Lemma compile_writes_only_when_lowering_witness :
  let out := Demo.compile_text Demo.lower_ptx Demo.request Demo.warm_world in
  w_files out.1 = w_files Demo.warm_world /\ w_groups out.1 = w_groups Demo.warm_world.
Proof.
  apply (compile_writes_only_when_lowering (Demo.cuda Demo.lower_ptx)
           (ArgPath Demo.request) Demo.device_type None Demo.no_config None
           VNone Demo.no_kwargs Demo.warm_world).
  vm_compute. repeat constructor.
Defined.

Lemma compile_twice_witness :
  let again := Demo.compile_text Demo.lower_ptx Demo.request
                 (with_seed Sample.first_run.1 6) in
  w_files again.1 = w_files Sample.first_run.1
  /\ w_groups again.1 = w_groups Sample.first_run.1.
Proof.
  destruct (compile_twice (Demo.cuda Demo.lower_ptx) (ArgPath Demo.request)
              Demo.device_type None Demo.no_config None VNone Demo.no_kwargs
              Demo.empty_world Demo.refined (md5_hexdigest (ir_src Demo.request))
              Demo.seed 1%nat "parsed(kernel.ttgir)" Sample.first_handle 6
              ltac:(vm_compute; reflexivity) ltac:(vm_compute; reflexivity)
              ltac:(vm_compute; reflexivity) ltac:(vm_compute; reflexivity)
              ltac:(vm_compute; reflexivity) ltac:(vm_compute; reflexivity)
              ltac:(vm_compute; reflexivity) ltac:(vm_compute; reflexivity))
    as (_ & _ & Hfiles & Hgroups).
  split; [exact Hfiles | exact Hgroups].
Defined.

Lemma compile_artifacts_stored_witness :
  file_at Sample.first_run.1
    {| p_dir := md5_hexdigest
                  (cache_key 1 (md5_hexdigest (ir_src Demo.request)) "cuda-80"
                             "opts(8)" Demo.env);
       p_name := "@kernel.ptx" |}
  = Some "ptx(llir(ttgir(parsed(kernel.ttgir))))".
Proof.
  destruct (compile_artifacts_stored (Demo.cuda Demo.lower_ptx)
              (ArgPath Demo.request) Demo.device_type None Demo.no_config None
              VNone Demo.no_kwargs Demo.empty_world Demo.refined
              (md5_hexdigest (ir_src Demo.request))
              ltac:(vm_compute; reflexivity) ltac:(vm_compute; reflexivity)
              Demo.seed 1%nat "parsed(kernel.ttgir)"
              "cubin(ptx(llir(ttgir(parsed(kernel.ttgir)))))" Demo.lowered
              ltac:(vm_compute; reflexivity) ltac:(vm_compute; reflexivity)
              ltac:(vm_compute; reflexivity) ltac:(vm_compute; reflexivity)
              ltac:(vm_compute; reflexivity))
    as (_ & _ & _ & _ & Hfile).
  apply (Hfile "ptx" "ptx(llir(ttgir(parsed(kernel.ttgir))))"); [|discriminate].
  vm_compute. repeat constructor.
Defined.

Lemma compile_handle_asm_witness :
  asm Sample.first_handle !! "ptx" = Some "ptx(llir(ttgir(parsed(kernel.ttgir))))"
  /\ kernel Sample.first_handle = "cubin(ptx(llir(ttgir(parsed(kernel.ttgir)))))".
Proof.
  destruct (compile_handle_asm (Demo.cuda Demo.lower_ptx)
              (ArgPath Demo.request) Demo.device_type None Demo.no_config None
              VNone Demo.no_kwargs Demo.empty_world Demo.refined
              (md5_hexdigest (ir_src Demo.request))
              ltac:(vm_compute; reflexivity) ltac:(vm_compute; reflexivity)
              Demo.seed 1%nat "parsed(kernel.ttgir)" Sample.first_handle
              ltac:(vm_compute; reflexivity) ltac:(vm_compute; reflexivity)
              ltac:(vm_compute; reflexivity) ltac:(vm_compute; reflexivity)
              ltac:(vm_compute; reflexivity) ltac:(discriminate)
              ltac:(vm_compute; reflexivity)
              ltac:(repeat constructor; discriminate))
    as (Hasm & _ & _).
  split; [|reflexivity].
  apply Hasm; [|discriminate]. vm_compute. repeat constructor.
Defined.

Lemma init_many_loads_once_witness :
  let out := init_many [Demo.gpu 30000; Demo.gpu 49152; Demo.gpu 49152] []
                       (Demo.handle 40000) in
  kernel out.2 = "binary" /\ bound out.2 = true.
Proof.
  destruct (init_many_loads_once [Demo.gpu 30000; Demo.gpu 49152; Demo.gpu 49152] []
              (Demo.handle 40000)) as (_ & queries & _ & _ & [Hsame|Hload]).
  - split; [by rewrite Hsame|]. vm_compute. reflexivity.
  - destruct Hload as (_ & Hb & _ & Hk & _). split; [exact Hk | exact Hb].
Defined.


Lemma compile_function_defaults_witness :
  (compile (Demo.cuda Demo.lower_ptx) (ArgFn Sample.add_kernel) Demo.device_type
           None Demo.no_config None VNone Demo.no_kwargs Demo.empty_world).2
  = inl (TypeError "'NoneType' object is not iterable").
Proof.
  destruct (compile_function_defaults (Demo.cuda Demo.lower_ptx) Sample.add_kernel
              Demo.device_type None Demo.no_config None VNone Demo.no_kwargs
              Demo.empty_world (or_intror eq_refl)) as (e & Hrun & He & _).
  rewrite Hrun. cbn [snd]. f_equal. apply He. left. reflexivity.
Defined.
